(** * InitWatcher: the single-flight, retrying, resettable initializer

    A shallow embedding of the class [InitWatcher<T>] of
    [src/modules/desktop/electron/libs/initialize.ts] (lines 9-65).

    The class lives in a single-threaded event loop.  The embedding keeps
    what the class keeps (its three fields) and adds the two pieces of the
    JavaScript run time its behaviour depends on: the promises created by
    [initialize] (a heap indexed by promise id) and a counter of the calls
    made to the producer.  A producer is an asynchronous function whose
    every call settles later, with a value or with an error; the moment it
    settles is an event of its own, so that calls of the methods and
    completions of producers interleave freely.

    A producer does not call the methods of the watcher it belongs to: the
    one of this file (lines 70-79) does not.  Numbers ([retries],
    [currentAttempt]) are whole numbers, on which the arithmetic of the code
    is exact up to 2^53. *)

From stdpp Require Import base option list numbers strings pretty.

Local Open Scope Z_scope.

(** ** Data *)

(** [type InitState = "NOT_INITIALIZED" | "PENDING" | "INITIALIZED"] *)
Inductive InitState := NOT_INITIALIZED | PENDING | INITIALIZED.

#[global] Instance InitState_eq_dec : EqDecision InitState.
Proof. solve_decision. Defined.

Section InitWatcher.

Context {T Err : Type}.

(** How one call of an asynchronous function settles. *)
Inductive settled :=
  | Resolved (value : T)
  | Rejected (error : Err).

(** The producer, [() => Promise<T>].  Its calls are numbered from 0 in the
    order in which they are made; [func k] is how call number [k] settles.
    Every behaviour of a producer over an execution is such a function. *)
Definition producer := nat -> settled.

(** The class: three private fields. *)
Record InitWatcher := mkInitWatcher {
  initState : InitState;
  initFunction : producer;
  initializationPromise : option nat  (* [None] is [undefined] *)
}.

(** A promise made by [initialize]: the chain
    [retryFunction(..).then(..).catch(..)].  While [retryFunction] is
    suspended at [await func()] the promise is [Running], and the frame of
    the suspended call is its [retries], its [currentAttempt] and the number
    of the producer call awaited. *)
Inductive promise :=
  | Running (retries currentAttempt : Z) (call : nat)
  | Fulfilled (value : T)
  | Failed (error : Err).

(** The watcher in its run time. *)
Record machine := mkMachine {
  this : InitWatcher;
  heap : list promise;
  invocations : nat  (* calls made to the producer so far *)
}.

(** ** [retryFunction] (lines 40-51) *)

(** What the body does once the awaited call has settled. *)
Inductive resumed :=
  | Returns (result : T)
  | Throws (error : Err)
  | Retries (currentAttempt : Z).

Definition retryFunction_resume (retries currentAttempt : Z) (o : settled) : resumed :=
  match o with
  | Resolved result => Returns result
  | Rejected error =>
      if currentAttempt <? retries then Retries (currentAttempt + 1)
      else Throws error
  end.

(** The whole call, run to its end against a producer whose next call is
    number [calls]: the result and the number of the next call after it.
    [fuel] bounds the recursion; [retryFunction_fuel] below is enough. *)
Fixpoint retryFunction (fuel : nat) (func : producer) (retries currentAttempt : Z)
    (calls : nat) : option (settled * nat) :=
  match fuel with
  | O => None
  | S fuel' =>
      match retryFunction_resume retries currentAttempt (func calls) with
      | Returns result => Some (Resolved result, S calls)
      | Throws error => Some (Rejected error, S calls)
      | Retries currentAttempt' =>
          retryFunction fuel' func retries currentAttempt' (S calls)
      end
  end.

Definition retryFunction_fuel (retries currentAttempt : Z) : nat :=
  S (Z.to_nat (retries - currentAttempt)).

(** ** The methods *)

(** [constructor(initFunction)] (lines 16-20) *)
Definition constructor (initFunction : producer) : InitWatcher :=
  {| initState := NOT_INITIALIZED;
     initFunction := initFunction;
     initializationPromise := None |}.

(** [reset(): void] (lines 53-56) *)
Definition reset (w : InitWatcher) : InitWatcher :=
  {| initState := NOT_INITIALIZED;
     initFunction := initFunction w;
     initializationPromise := None |}.

(** [getState()] (lines 62-64) *)
Definition getState (w : InitWatcher) : InitState := initState w.

(** What a caller holds after a call of an [async] method. *)
Inductive returned :=
  | Stored (handle : option nat)   (* resolved with [this.initializationPromise] *)
  | Awaited (inner : returned).    (* the body [return await inner] *)

(** [initialize()] (lines 22-38).  In state [NOT_INITIALIZED] the call of
    [retryFunction(this.initFunction, 3)] runs up to its first [await]: the
    producer is called once and the new promise is stored. *)
Definition initialize (m : machine) : machine * returned :=
  let m' :=
    match initState (this m) with
    | NOT_INITIALIZED =>
        {| this := {| initState := PENDING;
                      initFunction := initFunction (this m);
                      initializationPromise := Some (length (heap m)) |};
           heap := heap m ++ [Running 3 1 (invocations m)];
           invocations := S (invocations m) |}
    | _ => m
    end in
  (m', Stored (initializationPromise (this m'))).

(** [observe()] (lines 58-60) *)
Definition observe (m : machine) : machine * returned :=
  let '(m', r) := initialize m in (m', Awaited r).

(** The producer call awaited by promise [p] settles: [retryFunction]
    resumes, and when it ends the [then] or the [catch] callback of
    [initialize] (lines 26-34) runs. *)
Definition settle (p : nat) (m : machine) : machine :=
  match heap m !! p with
  | Some (Running retries currentAttempt call) =>
      match retryFunction_resume retries currentAttempt (initFunction (this m) call) with
      | Returns value =>
          {| this := {| initState := INITIALIZED;
                        initFunction := initFunction (this m);
                        initializationPromise := initializationPromise (this m) |};
             heap := <[p := Fulfilled value]> (heap m);
             invocations := invocations m |}
      | Throws error =>
          {| this := {| initState := NOT_INITIALIZED;
                        initFunction := initFunction (this m);
                        initializationPromise := None |};
             heap := <[p := Failed error]> (heap m);
             invocations := invocations m |}
      | Retries currentAttempt' =>
          {| this := this m;
             heap := <[p := Running retries currentAttempt' (invocations m)]> (heap m);
             invocations := S (invocations m) |}
      end
  | _ => m
  end.

(** ** Executions *)

Inductive event :=
  | call_initialize
  | call_observe
  | call_reset
  | producer_settles (p : nat).

Definition step (m : machine) (ev : event) : machine * option returned :=
  match ev with
  | call_initialize => let '(m', r) := initialize m in (m', Some r)
  | call_observe => let '(m', r) := observe m in (m', Some r)
  | call_reset =>
      ({| this := reset (this m); heap := heap m; invocations := invocations m |}, None)
  | producer_settles p => (settle p m, None)
  end.

(** Runs a trace; the results of its calls of [initialize] and [observe]
    are collected in order. *)
Fixpoint exec (m : machine) (tr : list event) : machine * list returned :=
  match tr with
  | [] => (m, [])
  | ev :: tr' =>
      let '(m1, r) := step m ev in
      let '(m2, rs) := exec m1 tr' in
      (m2, match r with Some x => x :: rs | None => rs end)
  end.

(** A watcher just constructed, before anything has run. *)
Definition boot (initFunction : producer) : machine :=
  {| this := constructor initFunction; heap := []; invocations := 0 |}.

(** What a caller that awaits has received so far. *)
Inductive received :=
  | Waiting
  | Got (o : settled)
  | GotUndefined.

Fixpoint receive (m : machine) (r : returned) : received :=
  match r with
  | Stored None => GotUndefined
  | Stored (Some p) =>
      match heap m !! p with
      | Some (Fulfilled value) => Got (Resolved value)
      | Some (Failed error) => Got (Rejected error)
      | _ => Waiting
      end
  | Awaited inner =>
      match receive m inner with
      | Got (Resolved value) => Got (Resolved value)
      | Got (Rejected error) => Got (Rejected error)
      | GotUndefined => GotUndefined
      | Waiting => Waiting
      end
  end.

(** The promise a caller is joined to. *)
Fixpoint handle_of (r : returned) : option nat :=
  match r with
  | Stored h => h
  | Awaited inner => handle_of inner
  end.

Definition is_running (c : promise) : bool :=
  match c with Running _ _ _ => true | _ => false end.

Definition is_fulfilled (c : promise) : bool :=
  match c with Fulfilled _ => true | _ => false end.

(** The producer sequences in flight: one for each promise still running. *)
Fixpoint active (h : list promise) : nat :=
  match h with
  | [] => 0%nat
  | c :: h' => ((if is_running c then 1 else 0) + active h')%nat
  end.

(** ** Predicates on machines and traces *)

Definition is_call (ev : event) : bool :=
  match ev with
  | call_initialize | call_observe => true
  | _ => false
  end.

Definition is_reset (ev : event) : bool :=
  match ev with call_reset => true | _ => false end.

Definition weight (c : promise) : nat := if is_running c then 1%nat else 0%nat.

(** The machine right after the call that starts an attempt in [m]. *)
Definition started (m : machine) : machine :=
  {| this := {| initState := PENDING;
                initFunction := initFunction (this m);
                initializationPromise := Some (length (heap m)) |};
     heap := heap m ++ [Running 3 1 (invocations m)];
     invocations := S (invocations m) |}.

(** The same attempt suspended at its [a]-th call of the producer, the
    [n]-th call made since [m]. *)
Definition retrying (m : machine) (a : Z) (n : nat) : machine :=
  {| this := {| initState := PENDING;
                initFunction := initFunction (this m);
                initializationPromise := Some (length (heap m)) |};
     heap := heap m ++ [Running 3 a (invocations m + n)%nat];
     invocations := S (invocations m + n) |}.

(** The machine after the attempt started in [m] has ended with [o]. *)
Definition finished (m : machine) (o : settled) (calls : nat) : machine :=
  match o with
  | Resolved v =>
      {| this := {| initState := INITIALIZED;
                    initFunction := initFunction (this m);
                    initializationPromise := Some (length (heap m)) |};
         heap := heap m ++ [Fulfilled v];
         invocations := calls |}
  | Rejected e =>
      {| this := {| initState := NOT_INITIALIZED;
                    initFunction := initFunction (this m);
                    initializationPromise := None |};
         heap := heap m ++ [Failed e];
         invocations := calls |}
  end.

(** Holds in every state the watcher can reach: the stored promise is
    cleared whenever the state is [NOT_INITIALIZED], and is a promise of the
    heap whenever the state is [PENDING]. *)
Definition linked (m : machine) : Prop :=
  match initState (this m) with
  | NOT_INITIALIZED => initializationPromise (this m) = None
  | PENDING => exists p, initializationPromise (this m) = Some p /\ (p < length (heap m))%nat
  | INITIALIZED => True
  end.

(** No sequence is in flight apart from the one the watcher is waiting
    for. *)
Definition clean (m : machine) : Prop :=
  match initState (this m) with
  | NOT_INITIALIZED =>
      initializationPromise (this m) = None /\ active (heap m) = 0%nat
  | PENDING =>
      exists p retries a call,
        initializationPromise (this m) = Some p /\
        heap m !! p = Some (Running retries a call) /\ active (heap m) = 1%nat
  | INITIALIZED =>
      exists p v,
        initializationPromise (this m) = Some p /\
        heap m !! p = Some (Fulfilled v) /\ active (heap m) = 0%nat
  end.

(** Every [reset()] of the trace is called while no attempt is in flight,
    that is in a state other than [PENDING]. *)
Fixpoint resets_when_idle (m : machine) (tr : list event) : bool :=
  match tr with
  | [] => true
  | ev :: tr' =>
      match ev with
      | call_reset => negb (bool_decide (getState (this m) = PENDING))
      | _ => true
      end && resets_when_idle (fst (step m ev)) tr'
  end.

(** After every event of the trace the state is [PENDING]: the trace lies
    within one attempt, from the call that starts it (or from a moment at
    which it already runs) to a moment before it ends. *)
Fixpoint stays_pending (m : machine) (tr : list event) : bool :=
  match tr with
  | [] => true
  | ev :: tr' =>
      bool_decide (getState (this (fst (step m ev))) = PENDING)
      && stays_pending (fst (step m ev)) tr'
  end.

End InitWatcher.

Arguments settled : clear implicits.
Arguments producer : clear implicits.
Arguments InitWatcher : clear implicits.
Arguments promise : clear implicits.
Arguments machine : clear implicits.
Arguments resumed : clear implicits.
Arguments received : clear implicits.

(** ** The watcher of the command-line tool

    [cliInitializationState] is an [InitWatcher<string>]: its producer
    resolves with a version.  Four producers for the executions at the end. *)

Module Cli.

Definition resolves : producer string string :=
  fun _ => Resolved "0.31.2".

Definition rejects : producer string string :=
  fun _ => Rejected "ETIMEDOUT".

(** Fails on its first two calls, succeeds from the third on. *)
Definition succeeds_third : producer string string :=
  fun k => if (k <? 2)%nat then Rejected "ETIMEDOUT" else Resolved "0.31.2".

(** Only its second call succeeds. *)
Definition second_only : producer string string :=
  fun k => if (k =? 1)%nat then Resolved "0.31.2" else Rejected "ETIMEDOUT".

(** Its second call resolves with one version, its fifth with another;
    every other call fails. *)
Definition two_versions : producer string string :=
  fun k =>
    if (k =? 1)%nat then Resolved "0.31.2"
    else if (k =? 4)%nat then Resolved "0.32.0"
    else Rejected "ETIMEDOUT".

End Cli.

(** ** The module around the class (lines 68-91) *)

Section TeaCli.

Context {T Err : Type}.

(** [cliInitializationState] is constructed (line 70) and [initialize()] is
    called on it when the module is loaded (line 81). *)
Definition loaded (initFunction : producer T Err) : machine T Err :=
  fst (initialize (boot initFunction)).

(** [initializeTeaCli()] (lines 83-91).  [binary] is the answer of
    [fs.existsSync(path.join(teaCliPrefix, "bin/tea"))], which is asked for
    only in state [INITIALIZED].  The function returns the promise of
    [observe()]. *)
Definition initializeTeaCli (binary : bool) (m : machine T Err)
    : machine T Err * returned :=
  let m1 :=
    if bool_decide (getState (this m) = INITIALIZED) && negb binary
    then {| this := reset (this m); heap := heap m; invocations := invocations m |}
    else m in
  observe m1.

(** What happens to the watcher of the module when only the module itself
    uses it: calls of [initializeTeaCli()] and completions of the producer. *)
Inductive tea_event :=
  | tea_call (binary : bool)
  | tea_settles (p : nat).

Definition tea_step (m : machine T Err) (ev : tea_event)
    : machine T Err * option returned :=
  match ev with
  | tea_call binary => let '(m', r) := initializeTeaCli binary m in (m', Some r)
  | tea_settles p => (settle p m, None)
  end.

Fixpoint tea_exec (m : machine T Err) (tr : list tea_event)
    : machine T Err * list returned :=
  match tr with
  | [] => (m, [])
  | ev :: tr' =>
      let '(m1, r) := tea_step m ev in
      let '(m2, rs) := tea_exec m1 tr' in
      (m2, match r with Some x => x :: rs | None => rs end)
  end.

(** ** Accounting of producer calls *)

(** An upper bound on the calls of the producer one promise stands for:
    the attempt number while it runs, the retry bound once it has settled. *)
Definition spent (c : promise T Err) : Z :=
  match c with
  | Running _ currentAttempt _ => currentAttempt
  | _ => 3
  end.

Fixpoint spent_total (h : list (promise T Err)) : Z :=
  match h with
  | [] => 0
  | c :: h' => spent c + spent_total h'
  end.

Definition within_bound (c : promise T Err) : Prop :=
  match c with
  | Running retries currentAttempt _ => retries = 3 /\ 1 <= currentAttempt <= 3
  | _ => True
  end.

Definition budgeted (m : machine T Err) : Prop :=
  Forall within_bound (heap m) /\ Z.of_nat (invocations m) <= spent_total (heap m).

(** The promise whose sequence calls the producer at an event, if one
    does: the new promise of a call that starts an attempt, the promise that
    retries at a completion. *)
Definition caller_of (m : machine T Err) (ev : event) : option nat :=
  match ev with
  | call_initialize | call_observe =>
      match initState (this m) with
      | NOT_INITIALIZED => Some (length (heap m))
      | _ => None
      end
  | call_reset => None
  | producer_settles p =>
      match heap m !! p with
      | Some (Running retries currentAttempt call) =>
          match retryFunction_resume retries currentAttempt (initFunction (this m) call) with
          | Retries _ => Some p
          | _ => None
          end
      | _ => None
      end
  end.

(** The calls of the producer made over a trace, in order, each named by
    the promise whose sequence made it. *)
Fixpoint callers (m : machine T Err) (tr : list event) : list nat :=
  match tr with
  | [] => []
  | ev :: tr' =>
      match caller_of m ev with Some p => [p] | None => [] end
      ++ callers (fst (step m ev)) tr'
  end.

(** How many of these calls promise [p] made. *)
Fixpoint calls_by (p : nat) (ps : list nat) : nat :=
  match ps with
  | [] => 0%nat
  | q :: ps' => ((if decide (q = p) then 1 else 0) + calls_by p ps')%nat
  end.

(** The calls accounted for so far agree with the machine: their number is
    the counter, a running promise has made as many as its attempt number,
    between one and three, and a settled one between one and three. *)
Definition attributed (m : machine T Err) (ps : list nat) : Prop :=
  length ps = invocations m /\
  forall p,
    match heap m !! p with
    | None => calls_by p ps = 0%nat
    | Some (Running retries currentAttempt _) =>
        retries = 3 /\ Z.of_nat (calls_by p ps) = currentAttempt /\ 1 <= currentAttempt <= 3
    | Some _ => (1 <= calls_by p ps <= 3)%nat
    end.

(** The machine while the producer runs the synchronous part of the first
    call of an attempt: line 24 has set the state, line 25 has not stored
    the promise yet. *)
Definition entered (m : machine T Err) : machine T Err :=
  {| this := {| initState := PENDING;
                initFunction := initFunction (this m);
                initializationPromise := initializationPromise (this m) |};
     heap := heap m;
     invocations := invocations m |}.

(** What [settle] reads and what it writes apart from the fields of the
    watcher. *)
Definition run_time (m : machine T Err) : producer T Err * list (promise T Err) * nat :=
  (initFunction (this m), heap m, invocations m).

End TeaCli.

(** ** Strings of JavaScript *)

Module Js.

(** A string is a sequence of UTF-16 code units. *)
Abbreviation str := (list N).

(** A literal of the source; the literals of this file are ASCII. *)
Definition lit (s : string) : str :=
  Ascii.N_of_ascii <$> String.list_ascii_of_string s.

(** The code units [String.prototype.trim] removes: white space and line
    terminators. *)
Definition isWhiteSpace (c : N) : bool :=
  ((c =? 9) || (c =? 10) || (c =? 11) || (c =? 12) || (c =? 13) || (c =? 32)
   || (c =? 160) || (c =? 5760) || ((8192 <=? c) && (c <=? 8202))
   || (c =? 8232) || (c =? 8233) || (c =? 8239) || (c =? 8287)
   || (c =? 12288) || (c =? 65279))%N.

Fixpoint trimStart (s : str) : str :=
  match s with
  | [] => []
  | c :: s' => if isWhiteSpace c then trimStart s' else s
  end.

Definition trimEnd (s : str) : str := reverse (trimStart (reverse s)).

(** [s.trim()] *)
Definition trim (s : str) : str := trimEnd (trimStart s).

(** [s.split(sep)] for a separator of one code unit.  The result is never
    empty: the empty string gives one empty piece. *)
Fixpoint split (sep : N) (s : str) : list str :=
  match s with
  | [] => [[]]
  | c :: s' =>
      if (c =? sep)%N then [] :: split sep s'
      else match split sep s' with
           | piece :: pieces => (c :: piece) :: pieces
           | [] => [[c]]
           end
  end.

(** [chunks.join("")] *)
Definition join (chunks : list str) : str := concat chunks.

(** [pieces.at(-1)]; [None] is [undefined]. *)
Definition at_last (pieces : list str) : option str := last pieces.

(** The line feed, [fromCharCode(10)]. *)
Definition LF : N := 10%N.

End Js.

(** ** The installer (lines 96-156) and the producer of the watcher (lines 70-79) *)

Module Install.

Import Js.

(** What a promise of the installer is rejected with: an [Error] made by
    the code, the status code of a response, or an error of the system
    (network, file system), named by its code. *)
Inductive thrown :=
  | Error (message : str)
  | StatusCode (statusCode : Z)
  | SystemError (code : str).

(** What [https.get] leads to: an ['error'] event, a response that ends
    after its chunks, or neither. *)
Inductive response :=
  | RequestError (code : str)
  | Response (statusCode : Z) (chunks : list str)
  | Stalled.

(** What the installer does to the world. *)
Inductive action :=
  | Get (url : str)
  | Mkdir (path : str)
  | SpawnTar (cwd : str)
  | Chdir (path : str)
  | Unlink (path : str)
  | Symlink (target path : str).

(** The world the installer runs in.  A call of the file system that
    throws has no effect; [fs_throws] names the error.  [process.cwd()] and
    [fs.existsSync] answer without throwing, and a [tar] that was spawned
    closes. *)
Record system := {
  arch : str;                       (* process.arch *)
  platform : str;                   (* process.platform *)
  HOME : option str;                (* process.env.HOME *)
  cwd : str;                        (* process.cwd() *)
  https_get : str -> response;
  tar_close : option Z;             (* the code of 'close'; [None] is null *)
  existsSync : str -> bool;
  readlinkSync : str -> str + str;  (* the error thrown, or the target *)
  fs_throws : action -> option str
}.

Inductive outcome (A : Type) :=
  | Resolves (value : A)
  | Rejects (e : thrown)
  | NeverSettles.
Arguments Resolves {A} value.
Arguments Rejects {A} e.
Arguments NeverSettles {A}.

(** An asynchronous computation: the actions done, in order, and how it
    ends. *)
Definition run (A : Type) : Type := list action * outcome A.

#[global] Instance run_ret : MRet run := fun A x => ([], Resolves x).

#[global] Instance run_bind : MBind run := fun A B k c =>
  match c with
  | (log, Resolves x) => let '(log', o) := k x in (log ++ log', o)
  | (log, Rejects e) => (log, Rejects e)
  | (log, NeverSettles) => (log, NeverSettles)
  end.

Definition throw {A} (e : thrown) : run A := ([], Rejects e).

Definition perform (sys : system) (a : action) : run unit :=
  match fs_throws sys a with
  | Some code => ([], Rejects (SystemError code))
  | None => ([a], Resolves tt)
  end.

(** [`${x}`] for a string that may be undefined, and for an exit code that
    may be null. *)
Definition template (x : option str) : str :=
  match x with Some s => s | None => lit "undefined" end.

Definition template_code (x : option Z) : str :=
  match x with Some n => lit (pretty n) | None => lit "null" end.

(** Lines 99-108. *)
Definition midfix (sys : system) : run str :=
  if decide (arch sys = lit "arm64") then mret (platform sys ++ lit "/aarch64")
  else if decide (arch sys = lit "x64") then mret (platform sys ++ lit "/x86-64")
  else throw (Error (lit "unsupported platform: " ++ platform sys ++ lit "/" ++ arch sys)).

(** Line 119: the last line of the body, trimmed. *)
Definition lastVersion (chunks : list str) : option str :=
  at_last (split LF (trim (join chunks))).

Definition versionsUrl (midfix : str) : str :=
  lit "https://dist.tea.xyz/tea.xyz/" ++ midfix ++ lit "/versions.txt".

Definition tarballUrl (midfix v : str) : str :=
  lit "https://dist.tea.xyz/tea.xyz/" ++ midfix ++ lit "/v" ++ v ++ lit ".tar.gz".

(** Lines 111-123. *)
Definition fetchVersion (sys : system) (midfix : str) : run (option str) :=
  ([Get (versionsUrl midfix)],
   match https_get sys (versionsUrl midfix) with
   | RequestError code => Rejects (SystemError code)
   | Response statusCode chunks =>
       if bool_decide (statusCode <> 200) then Rejects (StatusCode statusCode)
       else Resolves (lastVersion chunks)
   | Stalled => NeverSettles
   end).

(** Lines 129-141.  [tar] is spawned once the response has status 200, and
    the promise resolves with the code of its ['close'] event. *)
Definition extract (sys : system) (PREFIX midfix v : str) : run (option Z) :=
  match https_get sys (tarballUrl midfix v) with
  | RequestError code => ([Get (tarballUrl midfix v)], Rejects (SystemError code))
  | Response statusCode _ =>
      if bool_decide (statusCode <> 200)
      then ([Get (tarballUrl midfix v)], Rejects (StatusCode statusCode))
      else ([Get (tarballUrl midfix v); SpawnTar PREFIX], Resolves (tar_close sys))
  | Stalled => ([Get (tarballUrl midfix v)], NeverSettles)
  end.

(** [installTeaCli()] (lines 96-156) *)
Definition installTeaCli (sys : system) : run str :=
  let PREFIX := template (HOME sys) ++ lit "/.tea" in
  midfix ← midfix sys;
  v ← fetchVersion sys midfix;
  v ← match v with
      | Some (c :: s) => mret (c :: s)
      | _ => throw (Error (lit "invalid versions.txt for tea/cli"))
      end;
  _ ← perform sys (Mkdir PREFIX);
  exitcode ← extract sys PREFIX midfix v;
  _ ← (if bool_decide (exitcode = Some 0) then mret tt
       else throw (Error (lit "tar: " ++ template_code exitcode)));
  let oldwd := cwd sys in
  _ ← perform sys (Chdir (PREFIX ++ lit "/tea.xyz"));
  _ ← (if existsSync sys (lit "v*") then perform sys (Unlink (lit "v*")) else mret tt);
  _ ← perform sys (Symlink (lit "v" ++ v) (lit "v*"));
  _ ← (if existsSync sys (lit "v0") then perform sys (Unlink (lit "v0")) else mret tt);
  _ ← perform sys (Symlink (lit "v" ++ v) (lit "v0"));
  _ ← perform sys (Chdir oldwd);
  mret v.

(** The directory the process is in after the actions of a log. *)
Fixpoint cwd_after (start : str) (log : list action) : str :=
  match log with
  | [] => start
  | Chdir path :: log' => cwd_after path log'
  | _ :: log' => cwd_after start log'
  end.

Definition is_get (a : action) : bool :=
  match a with Get _ => true | _ => false end.

Definition touches_links (a : action) : bool :=
  match a with Chdir _ | Unlink _ | Symlink _ _ => true | _ => false end.

Section Producer.

(** Not in this file: [path.join] of node, [getTeaPath] of [./tea-dir], and
    [parse] of [@tea/libtea] with the [toString] of its result. *)
Variable path_join : str -> str -> str.
Variable getTeaPath : str.
Variable semver : Type.
Variable semverParse : str -> option semver.
Variable toString : semver -> str.

(** Line 68. *)
Definition teaCliPrefix : str := path_join getTeaPath (lit "tea.xyz/v*").

(** The producer of [cliInitializationState] (lines 70-79). *)
Definition cliProducer (sys : system) : run str :=
  if negb (existsSync sys (path_join teaCliPrefix (lit "bin/tea")))
  then installTeaCli sys
  else
    match readlinkSync sys teaCliPrefix with
    | inl code => throw (SystemError code)
    | inr dir =>
        match toString <$> semverParse dir with
        | Some (c :: s) => mret (c :: s)
        | _ => throw (Error (lit "couldn't parse to semver: " ++ dir))
        end
    end.

End Producer.

End Install.

(** ** Worlds for the executions at the end *)

Module Sample.

Import Js Install.

(** A Linux machine on [x64]: both requests are answered, [tar] succeeds,
    and a link [v*] is already there. *)
Definition linux_x64 : system :=
  {| arch := lit "x64";
     platform := lit "linux";
     HOME := Some (lit "/home/u");
     cwd := lit "/srv/app";
     https_get := fun url =>
       if decide (url = versionsUrl (lit "linux/x86-64"))
       then Response 200 [lit "0.30.0"; [LF]; lit "0.3"; lit "1.2"; [LF]]
       else Response 200 [];
     tar_close := Some 0;
     existsSync := fun path => bool_decide (path = lit "v*");
     readlinkSync := fun _ => inl (lit "EINVAL");
     fs_throws := fun _ => None |}.

(** The same machine, where the link [v*] dangles: [existsSync] does not
    find it and [symlink] throws. *)
Definition dangling_link : system :=
  {| arch := arch linux_x64;
     platform := platform linux_x64;
     HOME := HOME linux_x64;
     cwd := cwd linux_x64;
     https_get := https_get linux_x64;
     tar_close := tar_close linux_x64;
     existsSync := fun _ => false;
     readlinkSync := readlinkSync linux_x64;
     fs_throws := fun a =>
       match a with
       | Symlink _ path => if decide (path = lit "v*") then Some (lit "EEXIST") else None
       | _ => None
       end |}.

(** The same machine, where [tar] exits with code 2. *)
Definition tar_fails : system :=
  {| arch := arch linux_x64;
     platform := platform linux_x64;
     HOME := HOME linux_x64;
     cwd := cwd linux_x64;
     https_get := https_get linux_x64;
     tar_close := Some 2;
     existsSync := existsSync linux_x64;
     readlinkSync := readlinkSync linux_x64;
     fs_throws := fs_throws linux_x64 |}.

(** The same machine, where [versions.txt] is one empty line. *)
Definition blank_versions : system :=
  {| arch := arch linux_x64;
     platform := platform linux_x64;
     HOME := HOME linux_x64;
     cwd := cwd linux_x64;
     https_get := fun _ => Response 200 [[LF]];
     tar_close := tar_close linux_x64;
     existsSync := existsSync linux_x64;
     readlinkSync := readlinkSync linux_x64;
     fs_throws := fs_throws linux_x64 |}.

(** A machine of another architecture. *)
Definition riscv : system :=
  {| arch := lit "riscv64";
     platform := platform linux_x64;
     HOME := HOME linux_x64;
     cwd := cwd linux_x64;
     https_get := https_get linux_x64;
     tar_close := tar_close linux_x64;
     existsSync := existsSync linux_x64;
     readlinkSync := readlinkSync linux_x64;
     fs_throws := fs_throws linux_x64 |}.

(** A machine on which the tool is installed: the binary is found and the
    link at the prefix points to [v0.31.2]. *)
Definition installed : system :=
  {| arch := arch linux_x64;
     platform := platform linux_x64;
     HOME := HOME linux_x64;
     cwd := cwd linux_x64;
     https_get := fun _ => Stalled;
     tar_close := None;
     existsSync := fun _ => true;
     readlinkSync := fun _ => inr (lit "v0.31.2");
     fs_throws := fun _ => None |}.

(** Stand-ins for what is not in this file. *)
Definition path_join (a b : str) : str := a ++ lit "/" ++ b.

Definition getTeaPath : str := lit "/home/u/.tea".

Definition semverParse (s : str) : option str :=
  match s with
  | c :: rest => if (c =? 118)%N then Some rest else None
  | [] => None
  end.

Definition toString (v : str) : str := v.

End Sample.

(** * Properties *)

Section Retry.

Context {T Err : Type}.
Implicit Types (func : producer T Err) (retries currentAttempt : Z).

(** With enough fuel a call ends, after at least one call of [func] and at
    most as many as the fuel. *)
Lemma retryFunction_total fuel func retries currentAttempt calls :
  (retryFunction_fuel retries currentAttempt <= fuel)%nat ->
  exists o calls',
    retryFunction fuel func retries currentAttempt calls = Some (o, calls') /\
    (calls < calls' <= calls + retryFunction_fuel retries currentAttempt)%nat.
Proof.
  revert currentAttempt calls.
  induction fuel as [|fuel IH]; intros a calls Hfuel; unfold retryFunction_fuel in *.
  - lia.
  - cbn [retryFunction]. unfold retryFunction_resume.
    destruct (func calls) as [v|e].
    + exists (Resolved v), (S calls). split; [done | lia].
    + destruct (Z.ltb_spec a retries) as [Hlt|Hge].
      * destruct (IH (a + 1) (S calls)) as (o & n & Heq & Hn); [lia|].
        exists o, n. split; [done|].
        replace (Z.to_nat (retries - a)) with (S (Z.to_nat (retries - (a + 1)))) by lia.
        lia.
      * exists (Rejected e), (S calls). split; [done | lia].
Qed.


(** A call that succeeds is the last one. *)
Lemma retryFunction_resolved fuel func retries currentAttempt calls v :
  func calls = Resolved v ->
  retryFunction (S fuel) func retries currentAttempt calls = Some (Resolved v, S calls).
Proof. intros H. cbn [retryFunction]. unfold retryFunction_resume. by rewrite H. Qed.

(** A call that fails below the bound is followed by the next attempt. *)
Lemma retryFunction_rejected fuel func retries currentAttempt calls e :
  func calls = Rejected e ->
  currentAttempt < retries ->
  retryFunction (S fuel) func retries currentAttempt calls =
    retryFunction fuel func retries (currentAttempt + 1) (S calls).
Proof.
  intros H Hlt. cbn [retryFunction]. unfold retryFunction_resume. rewrite H.
  by destruct (Z.ltb_spec currentAttempt retries); [|lia].
Qed.


End Retry.


Section Machine.

Context {T Err : Type}.
Implicit Types (m : machine T Err) (w : InitWatcher T Err) (h : list (promise T Err)).
Implicit Types (r : returned) (tr : list event) (p : nat).

(** *** The heap *)

Lemma lookup_last h (c : promise T Err) : (h ++ [c]) !! length h = Some c.
Proof. by apply list_lookup_middle. Qed.

Lemma insert_last h (c x : promise T Err) : <[length h := x]> (h ++ [c]) = h ++ [x].
Proof.
  rewrite insert_app_r_alt by lia. by rewrite Nat.sub_diag.
Qed.

(** *** [settle], case by case *)

Lemma settle_returns p m retries a call v :
  heap m !! p = Some (Running retries a call) ->
  initFunction (this m) call = Resolved v ->
  settle p m =
    {| this := {| initState := INITIALIZED;
                  initFunction := initFunction (this m);
                  initializationPromise := initializationPromise (this m) |};
       heap := <[p := Fulfilled v]> (heap m);
       invocations := invocations m |}.
Proof. intros Hp Hf. unfold settle, retryFunction_resume. by rewrite Hp, Hf. Qed.

Lemma settle_retries p m retries a call e :
  heap m !! p = Some (Running retries a call) ->
  initFunction (this m) call = Rejected e ->
  a < retries ->
  settle p m =
    {| this := this m;
       heap := <[p := Running retries (a + 1) (invocations m)]> (heap m);
       invocations := S (invocations m) |}.
Proof.
  intros Hp Hf Hlt. unfold settle, retryFunction_resume. rewrite Hp, Hf.
  by destruct (Z.ltb_spec a retries); [|lia].
Qed.

Lemma settle_throws p m retries a call e :
  heap m !! p = Some (Running retries a call) ->
  initFunction (this m) call = Rejected e ->
  retries <= a ->
  settle p m =
    {| this := {| initState := NOT_INITIALIZED;
                  initFunction := initFunction (this m);
                  initializationPromise := None |};
       heap := <[p := Failed e]> (heap m);
       invocations := invocations m |}.
Proof.
  intros Hp Hf Hge. unfold settle, retryFunction_resume. rewrite Hp, Hf.
  by destruct (Z.ltb_spec a retries); [lia|].
Qed.

Lemma settle_done p m :
  (forall retries a call, heap m !! p <> Some (Running retries a call)) ->
  settle p m = m.
Proof.
  intros Hp. unfold settle. destruct (heap m !! p) as [[r a c| |]|] eqn:E; try done.
  by destruct (Hp r a c).
Qed.

(** *** Calls *)

Lemma initialize_starts m :
  initState (this m) = NOT_INITIALIZED ->
  initialize m =
    ({| this := {| initState := PENDING;
                   initFunction := initFunction (this m);
                   initializationPromise := Some (length (heap m)) |};
        heap := heap m ++ [Running 3 1 (invocations m)];
        invocations := S (invocations m) |},
     Stored (Some (length (heap m)))).
Proof. intros H. unfold initialize. by rewrite H. Qed.

Lemma initialize_joins m :
  initState (this m) <> NOT_INITIALIZED ->
  initialize m = (m, Stored (initializationPromise (this m))).
Proof. intros H. unfold initialize. by destruct (initState (this m)). Qed.

Lemma receive_handle_of m r : receive m r = receive m (Stored (handle_of r)).
Proof.
  induction r as [hd|inner IH]; [done|].
  cbn [handle_of]. rewrite <- IH. cbn [receive]. by destruct (receive m inner) as [|[]|].
Qed.

Lemma exec_app m tr1 tr2 :
  exec m (tr1 ++ tr2) =
    let '(m1, rs1) := exec m tr1 in
    let '(m2, rs2) := exec m1 tr2 in
    (m2, rs1 ++ rs2).
Proof.
  revert m. induction tr1 as [|ev tr1 IH]; intros m; cbn [exec app].
  - by destruct (exec m tr2).
  - destruct (step m ev) as [m1 r]. rewrite IH.
    destruct (exec m1 tr1) as [m2 rs1], (exec m2 tr2) as [m3 rs2].
    by destruct r.
Qed.

(** Callers that arrive when the state is not [NOT_INITIALIZED] change
    nothing and are all handed the stored promise. *)
Lemma exec_joiners m tr :
  initState (this m) <> NOT_INITIALIZED ->
  forallb is_call tr = true ->
  exists rs,
    exec m tr = (m, rs) /\ length rs = length tr /\
    Forall (fun r => handle_of r = initializationPromise (this m)) rs.
Proof.
  intros Hst. induction tr as [|ev tr IH]; cbn [forallb]; intros Hcalls.
  - by exists [].
  - apply andb_prop in Hcalls as [Hev Htr].
    destruct (IH Htr) as (rs & Hexec & Hlen & Hall).
    exists (match ev with call_observe => Awaited (Stored (initializationPromise (this m)))
                     | _ => Stored (initializationPromise (this m)) end :: rs).
    destruct ev; try done; cbn [exec step]; unfold observe;
      rewrite initialize_joins by done; rewrite Hexec;
      (split; [done|]); cbn [length]; (split; [by rewrite Hlen|]);
      by constructor.
Qed.

(** C8.  Whatever the state of the watcher, [reset()] sets it to
    [NOT_INITIALIZED] and clears the stored promise; it returns nothing and
    touches neither the promises already made nor the producer.  On a
    watcher on which nothing has run yet it changes nothing. *)
Theorem reset_clears_every_state m :
  getState (reset (this m)) = NOT_INITIALIZED /\
  initializationPromise (reset (this m)) = None /\
  initFunction (reset (this m)) = initFunction (this m) /\
  snd (step m call_reset) = None /\
  this (fst (step m call_reset)) = reset (this m) /\
  heap (fst (step m call_reset)) = heap m /\
  invocations (fst (step m call_reset)) = invocations m /\
  (forall f : producer T Err, reset (constructor f) = constructor f) /\
  (forall f : producer T Err, fst (step (boot f) call_reset) = boot f).
Proof. repeat split. Qed.

(** C9.  [observe()] is [initialize()]: from every machine it makes the
    same transition, joins the caller to the same promise, and lets the
    caller receive the same value or the same error at every later moment. *)
Theorem observe_is_initialize m :
  fst (observe m) = fst (initialize m) /\
  handle_of (snd (observe m)) = handle_of (snd (initialize m)) /\
  (forall m', receive m' (snd (observe m)) = receive m' (snd (initialize m))) /\
  fst (step m call_observe) = fst (step m call_initialize).
Proof.
  unfold observe, step, observe. destruct (initialize m) as [m1 r]. cbn [fst snd handle_of].
  repeat split. intros m'. cbn [receive]. by destruct (receive m' r) as [|[]|].
Qed.

(** *** One attempt, from its start to its end *)

Lemma started_retrying m : started m = retrying m 1 0.
Proof. unfold started, retrying. by rewrite Nat.add_0_r. Qed.

Lemma settle_retrying_rejected m a n e :
  initFunction (this m) (invocations m + n)%nat = Rejected e ->
  a < 3 ->
  settle (length (heap m)) (retrying m a n) = retrying m (a + 1) (S n).
Proof.
  intros Hf Ha.
  rewrite (settle_retries _ _ 3 a (invocations m + n)%nat e);
    [|apply lookup_last|done|done].
  unfold retrying; cbn. rewrite insert_last.
  by replace (invocations m + S n)%nat with (S (invocations m + n)) by lia.
Qed.

Lemma settle_retrying_exhausted m a n e :
  initFunction (this m) (invocations m + n)%nat = Rejected e ->
  3 <= a ->
  settle (length (heap m)) (retrying m a n) =
    {| this := {| initState := NOT_INITIALIZED;
                  initFunction := initFunction (this m);
                  initializationPromise := None |};
       heap := heap m ++ [Failed e];
       invocations := S (invocations m + n) |}.
Proof.
  intros Hf Ha.
  rewrite (settle_throws _ _ 3 a (invocations m + n)%nat e);
    [|apply lookup_last|done|done].
  unfold retrying; cbn. by rewrite insert_last.
Qed.

Lemma settle_retrying_resolved m a n v :
  initFunction (this m) (invocations m + n)%nat = Resolved v ->
  settle (length (heap m)) (retrying m a n) =
    {| this := {| initState := INITIALIZED;
                  initFunction := initFunction (this m);
                  initializationPromise := Some (length (heap m)) |};
       heap := heap m ++ [Fulfilled v];
       invocations := S (invocations m + n) |}.
Proof.
  intros Hf.
  rewrite (settle_returns _ _ 3 a (invocations m + n)%nat v);
    [|apply lookup_last|done].
  unfold retrying; cbn. by rewrite insert_last.
Qed.

(** Callers that join while the attempt is suspended. *)
Lemma exec_joiners_retrying m a n tr :
  forallb is_call tr = true ->
  exists rs,
    exec (retrying m a n) tr = (retrying m a n, rs) /\ length rs = length tr /\
    Forall (fun r => handle_of r = Some (length (heap m))) rs.
Proof. intros Htr. by apply (exec_joiners (retrying m a n) tr). Qed.

(** Step by step, an attempt left alone does what [retryFunction] run to
    its end does: the same result after the same calls of the producer. *)
Lemma settle_runs_retryFunction fuel m a n o calls :
  retryFunction fuel (initFunction (this m)) 3 a (invocations m + n)%nat = Some (o, calls) ->
  exists k, (k <= fuel)%nat /\
    fst (exec (retrying m a n) (replicate k (producer_settles (length (heap m)))))
      = finished m o calls.
Proof.
  revert a n. induction fuel as [|fuel IH]; intros a n Hrun; [done|].
  cbn [retryFunction] in Hrun. unfold retryFunction_resume in Hrun.
  destruct (initFunction (this m) (invocations m + n)%nat) as [v|e] eqn:Hf.
  - injection Hrun as <- <-. exists 1%nat. split; [lia|]. cbn.
    by rewrite (settle_retrying_resolved m a n v).
  - destruct (Z.ltb_spec a 3) as [Hlt|Hge].
    + replace (S (invocations m + n)) with (invocations m + S n)%nat in Hrun by lia.
      destruct (IH _ _ Hrun) as (k & Hk & Hexec).
      exists (S k). split; [lia|]. cbn [replicate exec step].
      rewrite (settle_retrying_rejected m a n e) by done.
      destruct (exec (retrying m (a + 1) (S n)) _) as [m2 rs]. by cbn in *.
    + injection Hrun as <- <-. exists 1%nat. split; [lia|]. cbn.
      by rewrite (settle_retrying_exhausted m a n e).
Qed.

(** C2.  A producer that fails on its first two calls and succeeds on the
    third: one call of [initialize()] on a watcher in state
    [NOT_INITIALIZED] ends in success after exactly three calls of the
    producer.  Each retry is made in the very step that handles the
    failure before it, and [retryFunction(func, 3)] run on its own gives the
    same result. *)
Theorem initialize_succeeds_on_third_attempt m e1 e2 v :
  initState (this m) = NOT_INITIALIZED ->
  initFunction (this m) (invocations m) = Rejected e1 ->
  initFunction (this m) (invocations m + 1)%nat = Rejected e2 ->
  initFunction (this m) (invocations m + 2)%nat = Resolved v ->
  let p := length (heap m) in
  let m' := {| this := {| initState := INITIALIZED;
                          initFunction := initFunction (this m);
                          initializationPromise := Some p |};
               heap := heap m ++ [Fulfilled v];
               invocations := (invocations m + 3)%nat |} in
  exec m [call_initialize; producer_settles p; producer_settles p; producer_settles p]
    = (m', [Stored (Some p)]) /\
  receive m' (Stored (Some p)) = Got (Resolved v) /\
  getState (this m') = INITIALIZED /\
  invocations (fst (exec m [call_initialize])) = (invocations m + 1)%nat /\
  invocations (fst (exec m [call_initialize; producer_settles p])) = (invocations m + 2)%nat /\
  invocations (fst (exec m [call_initialize; producer_settles p; producer_settles p]))
    = (invocations m + 3)%nat /\
  (forall fuel, (retryFunction_fuel 3 1 <= fuel)%nat ->
     retryFunction fuel (initFunction (this m)) 3 1 (invocations m)
       = Some (Resolved v, (invocations m + 3)%nat)).
Proof.
  intros Hst H1 H2 H3 p m'.
  assert (Hs1 : settle p (started m) = retrying m 2 1).
  { rewrite started_retrying. apply (settle_retrying_rejected m 1 0 e1); [|lia].
    by rewrite Nat.add_0_r. }
  assert (Hs2 : settle p (retrying m 2 1) = retrying m 3 2).
  { by apply (settle_retrying_rejected m 2 1 e2). }
  assert (Hs3 : settle p (retrying m 3 2) = m').
  { unfold p. rewrite (settle_retrying_resolved m 3 2 v) by done.
    unfold m'. by replace (S (invocations m + 2)) with (invocations m + 3)%nat by lia. }
  assert (Hi : initialize m = (started m, Stored (Some p))) by by apply initialize_starts.
  repeat split.
  - cbn [exec step]. rewrite Hi, Hs1, Hs2, Hs3. reflexivity.
  - unfold m'. cbn [receive heap]. unfold p. by rewrite lookup_last.
  - cbn [exec step fst]. rewrite Hi. cbn. lia.
  - cbn [exec step fst]. rewrite Hi, Hs1. cbn. lia.
  - cbn [exec step fst]. rewrite Hi, Hs1, Hs2. cbn. lia.
  - intros fuel Hfuel. unfold retryFunction_fuel in Hfuel.
    destruct fuel as [|[|[|fuel]]]; [simpl in Hfuel; lia..|].
    rewrite (retryFunction_rejected _ _ _ _ _ e1) by (done || lia).
    rewrite (retryFunction_rejected _ _ _ _ _ e2) by (by rewrite <- Nat.add_1_r || lia).
    rewrite (retryFunction_resolved _ _ _ _ _ v).
    + by replace (S (S (S (invocations m)))) with (invocations m + 3)%nat by lia.
    + by replace (S (S (invocations m))) with (invocations m + 2)%nat by lia.
Qed.

(** C3.  A producer that fails on all three calls of an attempt.  The first
    caller finds the state [NOT_INITIALIZED]; any number of further callers
    join while the attempt runs.  The attempt fails after exactly three calls
    of the producer; every caller receives the error of the third call
    itself; the state is [NOT_INITIALIZED] again with no promise stored; and
    the next [observe()] starts a new attempt, at attempt number 1 of 3, on a
    new promise, with one new call of the producer. *)
Theorem exhausted_attempt_fails_and_resets m first j1 j2 j3 e1 e2 e3 :
  initState (this m) = NOT_INITIALIZED ->
  is_call first = true ->
  forallb is_call j1 = true ->
  forallb is_call j2 = true ->
  forallb is_call j3 = true ->
  initFunction (this m) (invocations m) = Rejected e1 ->
  initFunction (this m) (invocations m + 1)%nat = Rejected e2 ->
  initFunction (this m) (invocations m + 2)%nat = Rejected e3 ->
  let p := length (heap m) in
  let m' := {| this := {| initState := NOT_INITIALIZED;
                          initFunction := initFunction (this m);
                          initializationPromise := None |};
               heap := heap m ++ [Failed e3];
               invocations := (invocations m + 3)%nat |} in
  (exists rs,
     exec m (first :: j1 ++ producer_settles p :: j2 ++ producer_settles p ::
               j3 ++ [producer_settles p]) = (m', rs) /\
     length rs = S (length j1 + length j2 + length j3) /\
     Forall (fun r => handle_of r = Some p) rs /\
     Forall (fun r => receive m' r = Got (Rejected e3)) rs) /\
  getState (this m') = NOT_INITIALIZED /\
  observe m' =
    ({| this := {| initState := PENDING;
                   initFunction := initFunction (this m);
                   initializationPromise := Some (S p) |};
        heap := heap m ++ [Failed e3; Running 3 1 (invocations m + 3)%nat];
        invocations := (invocations m + 4)%nat |},
     Awaited (Stored (Some (S p)))).
Proof.
  intros Hst Hfirst Hj1 Hj2 Hj3 H1 H2 H3 p m'.
  assert (Hs1 : settle p (retrying m 1 0) = retrying m 2 1).
  { apply (settle_retrying_rejected m 1 0 e1); [|lia]. by rewrite Nat.add_0_r. }
  assert (Hs2 : settle p (retrying m 2 1) = retrying m 3 2).
  { by apply (settle_retrying_rejected m 2 1 e2). }
  assert (Hs3 : settle p (retrying m 3 2) = m').
  { unfold p. rewrite (settle_retrying_exhausted m 3 2 e3) by done.
    unfold m'. by replace (S (invocations m + 2)) with (invocations m + 3)%nat by lia. }
  destruct (exec_joiners_retrying m 1 0 j1 Hj1) as (rs1 & Hx1 & Hl1 & Ha1).
  destruct (exec_joiners_retrying m 2 1 j2 Hj2) as (rs2 & Hx2 & Hl2 & Ha2).
  destruct (exec_joiners_retrying m 3 2 j3 Hj3) as (rs3 & Hx3 & Hl3 & Ha3).
  assert (Hrecv : forall r, handle_of r = Some p -> receive m' r = Got (Rejected e3)).
  { intros r Hr. rewrite receive_handle_of, Hr. unfold m'. cbn [receive heap].
    unfold p. by rewrite lookup_last. }
  split; [|split; [done|]].
  - assert (Htail : exec (retrying m 1 0)
        (j1 ++ producer_settles p :: j2 ++ producer_settles p :: j3 ++ [producer_settles p])
        = (m', rs1 ++ rs2 ++ rs3)).
    { rewrite exec_app, Hx1. cbn [exec step]. rewrite Hs1.
      rewrite exec_app, Hx2. cbn [exec step]. rewrite Hs2.
      rewrite exec_app, Hx3. cbn [exec step]. rewrite Hs3.
      by rewrite app_nil_r. }
    assert (Hall : Forall (fun r => handle_of r = Some p) (rs1 ++ rs2 ++ rs3)).
    { by repeat apply Forall_app_2. }
    destruct first; try done; cbn [exec step]; unfold observe;
      rewrite initialize_starts by done; fold (started m);
      rewrite started_retrying, Htail; eexists; (split; [done|]);
      (split; [cbn [length]; rewrite !length_app; lia|]);
      (split; [by constructor|]);
      (constructor; [by apply Hrecv|]);
      eapply Forall_impl; [apply Hall| |apply Hall|]; apply Hrecv.
  - unfold observe. rewrite initialize_starts by done. unfold m'; cbn.
    rewrite length_app, <- app_assoc. cbn.
    replace (length (heap m) + 1)%nat with (S p) by (unfold p; lia).
    by replace (S (invocations m + 3)) with (invocations m + 4)%nat by lia.
Qed.

(** *** Sequences in flight *)

Lemma active_app h1 h2 : active (h1 ++ h2) = (active h1 + active h2)%nat.
Proof. induction h1 as [|c h1 IH]; cbn [active app]; [done|]. rewrite IH. lia. Qed.

Lemma active_insert h q c x :
  h !! q = Some c ->
  (active (<[q := x]> h) + weight c = active h + weight x)%nat.
Proof.
  revert q. induction h as [|c0 h IH]; intros [|q] Hq; try done.
  - injection Hq as ->. simpl. unfold weight. lia.
  - simpl in Hq. specialize (IH q Hq). simpl. lia.
Qed.

Lemma active_lookup h q c : h !! q = Some c -> (weight c <= active h)%nat.
Proof.
  revert q. induction h as [|c0 h IH]; intros [|q] Hq; try done.
  - injection Hq as ->. simpl. unfold weight. lia.
  - simpl in Hq. specialize (IH q Hq). simpl. lia.
Qed.

Lemma active_lookup_two h q1 q2 c1 c2 :
  q1 <> q2 -> h !! q1 = Some c1 -> h !! q2 = Some c2 ->
  (weight c1 + weight c2 <= active h)%nat.
Proof.
  revert q1 q2. induction h as [|c0 h IH]; intros [|q1] [|q2] Hne H1 H2; try done.
  - injection H1 as ->. simpl in H2. apply active_lookup in H2.
    simpl. unfold weight in *. lia.
  - injection H2 as ->. simpl in H1. apply active_lookup in H1.
    simpl. unfold weight in *. lia.
  - simpl in H1, H2. assert (q1 <> q2) as Hne' by congruence.
    specialize (IH q1 q2 Hne' H1 H2). simpl. lia.
Qed.

(** *** Invariants *)

(** Splits [settle p m] into its four outcomes: nothing to resume, the
    sequence returns, it retries, it throws. *)
Ltac settle_cases p m :=
  let r := fresh "retries" in
  let a := fresh "attempt" in
  let c := fresh "call" in
  let Hcell := fresh "Hcell" in
  let Hout := fresh "Hout" in
  unfold settle;
  destruct (heap m !! p) as [[r a c| |]|] eqn:Hcell;
    [ unfold retryFunction_resume;
      destruct (initFunction (this m) c) eqn:Hout;
        [ | destruct (Z.ltb_spec a r) ]
    | .. ].

Lemma boot_linked (f : producer T Err) : linked (boot f).
Proof. done. Qed.

Lemma step_linked m ev : linked m -> linked (fst (step m ev)).
Proof.
  unfold linked. intros Hm. destruct ev as [| | |p]; cbn [step].
  - unfold initialize. destruct (initState (this m)) eqn:Hst; cbn; rewrite ?Hst; try done.
    eexists; split; [done|]. rewrite length_app. cbn. lia.
  - unfold observe, initialize. destruct (initState (this m)) eqn:Hst; cbn; rewrite ?Hst; try done.
    eexists; split; [done|]. rewrite length_app. cbn. lia.
  - done.
  - cbn [fst]. settle_cases p m; cbn; try done.
    destruct (initState (this m)); try done.
    destruct Hm as (q & Hq & Hlt). exists q. by rewrite length_insert.
Qed.

Lemma exec_linked m tr : linked m -> linked (fst (exec m tr)).
Proof.
  revert m. induction tr as [|ev tr IH]; intros m Hm; cbn [exec]; [done|].
  pose proof (step_linked m ev Hm) as H1. destruct (step m ev) as [m1 r].
  specialize (IH m1 H1). by destruct (exec m1 tr).
Qed.

Lemma boot_clean (f : producer T Err) : clean (boot f).
Proof. done. Qed.

Lemma clean_active m : clean m -> (active (heap m) <= 1)%nat.
Proof.
  unfold clean. destruct (initState (this m)).
  - intros [_ ->]. lia.
  - intros (p & r & a & c & _ & _ & ->). lia.
  - intros (p & v & _ & _ & ->). lia.
Qed.

Lemma initialize_clean m : clean m -> clean (fst (initialize m)).
Proof.
  unfold clean, initialize. destruct (initState (this m)) eqn:Hst; cbn; rewrite ?Hst; try done.
  intros [_ Hact]. exists (length (heap m)), 3, 1, (invocations m).
  split; [done|]. split; [apply lookup_last|]. rewrite active_app, Hact. done.
Qed.

Lemma settle_clean p m : clean m -> clean (settle p m).
Proof.
  intros Hm. pose proof Hm as Hm'. unfold clean in Hm'.
  settle_cases p m; try done.
  all: pose proof (active_lookup _ _ _ Hcell) as Hrun; unfold weight in Hrun; cbn in Hrun.
  all: destruct (initState (this m)) eqn:Hst;
    [ destruct Hm' as [_ Hact]; lia
    | destruct Hm' as (q & r0 & a0 & c0 & Hq & Hcell0 & Hact)
    | destruct Hm' as (q & v0 & _ & _ & Hact); lia ].
  all: assert (p = q) as <-
    by (destruct (decide (p = q)) as [|Hne]; [done|];
        pose proof (active_lookup_two _ _ _ _ _ Hne Hcell Hcell0) as H2;
        unfold weight in H2; cbn in H2; lia).
  all: pose proof (lookup_lt_Some _ _ _ Hcell) as Hlt.
  - unfold clean; cbn. eexists p, _. split; [done|].
    split; [by apply list_lookup_insert_eq|].
    pose proof (active_insert (heap m) p _ (Fulfilled value) Hcell) as Hi.
    unfold weight in Hi; cbn in Hi. lia.
  - unfold clean; cbn. rewrite Hst. eexists p, _, _, _. split; [done|].
    split; [by apply list_lookup_insert_eq|].
    pose proof (active_insert (heap m) p _
      (Running retries (attempt + 1) (invocations m)) Hcell) as Hi.
    unfold weight in Hi; cbn in Hi. lia.
  - unfold clean; cbn. split; [done|].
    pose proof (active_insert (heap m) p _ (Failed error) Hcell) as Hi.
    unfold weight in Hi; cbn in Hi. lia.
Qed.

(** [reset()] keeps the machine clean unless an attempt is in flight. *)
Lemma reset_clean m :
  clean m -> getState (this m) <> PENDING ->
  clean {| this := reset (this m); heap := heap m; invocations := invocations m |}.
Proof.
  unfold clean, getState. destruct (initState (this m)) eqn:Hst; cbn; try done.
  - by intros [_ ?].
  - by intros (p & v & _ & _ & ?).
Qed.

Lemma resets_when_idle_app m tr1 tr2 :
  resets_when_idle m (tr1 ++ tr2) =
    resets_when_idle m tr1 && resets_when_idle (fst (exec m tr1)) tr2.
Proof.
  revert m. induction tr1 as [|ev tr1 IH]; intros m; cbn [resets_when_idle app exec].
  - done.
  - rewrite IH. destruct (step m ev) as [m1 r]. cbn [fst].
    destruct (exec m1 tr1) as [m2 rs]. cbn [fst]. by rewrite andb_assoc.
Qed.

Lemma step_clean m ev :
  clean m -> resets_when_idle m [ev] = true -> clean (fst (step m ev)).
Proof.
  intros Hm Hev. destruct ev as [| | |p]; cbn [step].
  - pose proof (initialize_clean m Hm). by destruct (initialize m).
  - unfold observe. pose proof (initialize_clean m Hm). by destruct (initialize m).
  - cbn [fst]. apply reset_clean; [done|].
    cbn in Hev. rewrite andb_true_r in Hev. apply negb_true_iff in Hev.
    by apply bool_decide_eq_false in Hev.
  - by apply settle_clean.
Qed.

Lemma exec_clean m tr :
  clean m -> resets_when_idle m tr = true -> clean (fst (exec m tr)).
Proof.
  revert m. induction tr as [|ev tr IH]; intros m Hm Htr; cbn [exec]; [done|].
  change (ev :: tr) with ([ev] ++ tr) in Htr.
  rewrite resets_when_idle_app in Htr. apply andb_prop in Htr as [Hev Htr].
  pose proof (step_clean m ev Hm Hev) as H1.
  cbn [exec] in Htr. destruct (step m ev) as [m1 r]. cbn [fst] in *.
  specialize (IH m1 H1 Htr). by destruct (exec m1 tr).
Qed.

(** C6, as the code has it.  In an execution of a new watcher in which
    [reset()] is never called while an attempt is in flight, at most one
    producer sequence is in flight at any moment. *)
Theorem one_sequence_unless_reset_in_flight (f : producer T Err) tr1 tr2 :
  resets_when_idle (boot f) (tr1 ++ tr2) = true ->
  (active (heap (fst (exec (boot f) tr1))) <= 1)%nat.
Proof.
  rewrite resets_when_idle_app. intros [H1 _]%andb_prop.
  apply clean_active, exec_clean; [apply boot_clean | done].
Qed.

(** *** The window of one attempt *)

Lemma pending_step m ev :
  initState (this m) = PENDING ->
  initState (this (fst (step m ev))) = PENDING ->
  initializationPromise (this (fst (step m ev))) = initializationPromise (this m) /\
  length (heap (fst (step m ev))) = length (heap m) /\
  (is_call ev = true -> fst (step m ev) = m) /\
  (forall r, snd (step m ev) = Some r -> handle_of r = initializationPromise (this m)).
Proof.
  intros Hst Hst'. destruct ev as [| | |p]; cbn [step] in *.
  - rewrite initialize_joins in * by congruence. cbn.
    repeat split; try done. intros r [= <-]. done.
  - unfold observe in *. rewrite initialize_joins in * by congruence. cbn.
    repeat split; try done. intros r [= <-]. done.
  - done.
  - cbn [fst snd] in *. revert Hst'. settle_cases p m; cbn; try done.
    intros _. by rewrite length_insert.
Qed.

Lemma pending_window m tr :
  initState (this m) = PENDING ->
  stays_pending m tr = true ->
  initializationPromise (this (fst (exec m tr))) = initializationPromise (this m) /\
  length (heap (fst (exec m tr))) = length (heap m) /\
  (forallb is_call tr = true -> fst (exec m tr) = m) /\
  Forall (fun r => handle_of r = initializationPromise (this m)) (snd (exec m tr)).
Proof.
  revert m. induction tr as [|ev tr IH]; intros m Hst Htr; [done|].
  cbn [stays_pending] in Htr. apply andb_prop in Htr as [Hev Htr].
  apply bool_decide_eq_true in Hev. unfold getState in Hev.
  destruct (pending_step m ev Hst Hev) as (Hp & Hl & Hc & Hr).
  destruct (IH _ Hev Htr) as (Hp' & Hl' & Hc' & Hr').
  cbn [exec forallb]. destruct (step m ev) as [m1 r]. cbn [fst snd] in *.
  destruct (exec m1 tr) as [m2 rs]. cbn [fst snd] in *.
  repeat split; try congruence.
  - intros [H1 H2]%andb_prop. rewrite Hc' by done. by apply Hc.
  - rewrite Hp in Hr'. destruct r; [constructor|]; auto.
Qed.

(** The only event that leads into [PENDING] from another state is a call
    of [initialize()] or [observe()] in state [NOT_INITIALIZED]. *)
Lemma enters_pending m ev :
  initState (this m) <> PENDING ->
  initState (this (fst (step m ev))) = PENDING ->
  initState (this m) = NOT_INITIALIZED /\ is_call ev = true /\
  fst (step m ev) = started m /\
  exists r, snd (step m ev) = Some r /\ handle_of r = Some (length (heap m)).
Proof.
  intros Hst Hst'. destruct ev as [| | |p]; cbn [step] in *.
  - destruct (initState (this m)) eqn:E; try done.
    + rewrite initialize_starts in * by done. cbn. repeat split; eauto.
    + rewrite initialize_joins in Hst' by congruence. cbn in Hst'. congruence.
  - unfold observe in *. destruct (initState (this m)) eqn:E; try done.
    + rewrite initialize_starts in * by done. cbn. repeat split; eauto.
    + rewrite initialize_joins in Hst' by congruence. cbn in Hst'. congruence.
  - done.
  - cbn [fst] in Hst'. revert Hst'. settle_cases p m; cbn; try done.
Qed.

Lemma attempt_window m tr :
  linked m ->
  stays_pending m tr = true ->
  (length (heap (fst (exec m tr))) <= S (length (heap m)))%nat /\
  (initState (this m) = PENDING ->
     length (heap (fst (exec m tr))) = length (heap m)) /\
  (forallb is_call tr = true ->
     (invocations (fst (exec m tr)) <= S (invocations m))%nat) /\
  (tr <> [] ->
     exists p, initializationPromise (this (fst (exec m tr))) = Some p /\
       (p < length (heap (fst (exec m tr))))%nat /\
       Forall (fun r => handle_of r = Some p) (snd (exec m tr))).
Proof.
  intros Hlinked Htr.
  destruct (decide (initState (this m) = PENDING)) as [Hst|Hst].
  - destruct (pending_window m tr Hst Htr) as (Hp & Hl & Hc & Hr).
    unfold linked in Hlinked. rewrite Hst in Hlinked.
    destruct Hlinked as (p & Hp0 & Hlt).
    repeat split; try lia.
    + intros Hcalls. rewrite Hc by done. lia.
    + intros _. exists p. rewrite Hp, Hl, <- Hp0. done.
  - destruct tr as [|ev tr]; [cbn; repeat split; try done; lia|].
    cbn [stays_pending] in Htr. apply andb_prop in Htr as [Hev Htr].
    apply bool_decide_eq_true in Hev. unfold getState in Hev.
    destruct (enters_pending m ev Hst Hev) as (Hn & Hcall & Hm1 & r & Hr & Hh).
    destruct (pending_window _ tr Hev Htr) as (Hp & Hl & Hc & Hrs).
    cbn [exec forallb]. destruct (step m ev) as [m1 r']. cbn [fst snd] in *. subst m1 r'.
    destruct (exec (started m) tr) as [m2 rs]. cbn [fst snd] in *.
    assert (Hlen : length (heap (started m)) = S (length (heap m))).
    { unfold started; cbn. rewrite length_app. cbn. lia. }
    repeat split; try lia; try done.
    + intros [_ Hcalls]%andb_prop. rewrite Hc by done. done.
    + intros _. exists (length (heap m)). rewrite Hp, Hl, Hlen.
      repeat split; [lia|]. constructor; [done|]. done.
Qed.

(** Within one attempt.  A watcher in any state it can reach, and a trace
    during which an attempt is in progress: the first caller may find the state
    [NOT_INITIALIZED], every later one finds it [PENDING], and the producer
    may settle and be retried in between.  Then at most one producer
    sequence is started (none if one was in progress already), the callers
    themselves cause at most one call of the producer, every caller is joined
    to the same promise, and at any later moment all of them have received
    the same thing: nothing yet, the same value, or the same error. *)
Theorem single_flight (f : producer T Err) tr0 tr :
  stays_pending (fst (exec (boot f) tr0)) tr = true ->
  let m := fst (exec (boot f) tr0) in
  let m' := fst (exec m tr) in
  let rs := snd (exec m tr) in
  (length (heap m') <= S (length (heap m)))%nat /\
  (initState (this m) = PENDING -> length (heap m') = length (heap m)) /\
  (forallb is_call tr = true -> (invocations m' <= S (invocations m))%nat) /\
  (tr <> [] ->
     exists p, initializationPromise (this m') = Some p /\
       (p < length (heap m'))%nat /\
       Forall (fun r => handle_of r = Some p) rs) /\
  (forall m'' r1 r2, r1 ∈ rs -> r2 ∈ rs -> receive m'' r1 = receive m'' r2).
Proof.
  intros Htr m m' rs.
  assert (Hlinked : linked m) by apply exec_linked, boot_linked.
  destruct (attempt_window m tr Hlinked Htr) as (H1 & H2 & H3 & H4).
  repeat split; try done.
  intros m'' r1 r2 Hr1 Hr2.
  destruct (decide (tr = [])) as [->|Hne]; [by apply elem_of_nil in Hr1|].
  destruct (H4 Hne) as (p & _ & _ & Hall).
  rewrite Forall_forall in Hall.
  rewrite (receive_handle_of m'' r1), (receive_handle_of m'' r2).
  by rewrite (Hall r1 Hr1), (Hall r2 Hr2).
Qed.

(** *** What holds while no [reset()] has cut an attempt loose *)

(** A promise that has settled keeps its result. *)
Lemma step_keeps_settled m ev p (c : promise T Err) :
  heap m !! p = Some c -> is_running c = false ->
  heap (fst (step m ev)) !! p = Some c.
Proof.
  intros Hp Hc. destruct ev as [| | |q]; cbn [step].
  - unfold initialize. destruct (initState (this m)); cbn; try done.
    by apply lookup_app_l_Some.
  - unfold observe, initialize. destruct (initState (this m)); cbn; try done.
    by apply lookup_app_l_Some.
  - done.
  - cbn [fst]. settle_cases q m; cbn; try done.
    all: rewrite list_lookup_insert_ne; [done|]; intros ->.
    all: rewrite Hp in Hcell; injection Hcell as ->; done.
Qed.

Lemma receive_stable m ev r o :
  receive m r = Got o -> receive (fst (step m ev)) r = Got o.
Proof.
  rewrite !(receive_handle_of _ r). destruct (handle_of r) as [p|]; [|done].
  cbn [receive]. destruct (heap m !! p) as [c|] eqn:Hp; [|done].
  destruct c as [| v | e] eqn:Hc; try done.
  - by rewrite (step_keeps_settled m ev p (Fulfilled v)).
  - by rewrite (step_keeps_settled m ev p (Failed e)).
Qed.

(** In a clean machine the state moves only along the four arrows of the
    state machine. *)
Lemma clean_transitions m ev :
  clean m ->
  let s := getState (this m) in
  let s' := getState (this (fst (step m ev))) in
  s' = s \/
  (s = NOT_INITIALIZED /\ is_call ev = true /\ s' = PENDING) \/
  (s = PENDING /\ s' = INITIALIZED /\
     exists p retries a call v,
       ev = producer_settles p /\ heap m !! p = Some (Running retries a call) /\
       initFunction (this m) call = Resolved v) \/
  (s = PENDING /\ s' = NOT_INITIALIZED /\
     exists p retries a call e,
       ev = producer_settles p /\ heap m !! p = Some (Running retries a call) /\
       initFunction (this m) call = Rejected e /\ retries <= a) \/
  (ev = call_reset /\ s' = NOT_INITIALIZED).
Proof.
  intros Hm s s'. subst s s'. unfold getState.
  destruct ev as [| | |p]; cbn [step].
  - unfold initialize. destruct (initState (this m)) eqn:E; cbn; rewrite ?E; auto.
  - unfold observe, initialize. destruct (initState (this m)) eqn:E; cbn; rewrite ?E; auto.
  - cbn. auto 10.
  - cbn [fst]. unfold clean in Hm.
    settle_cases p m; cbn; auto.
    all: pose proof (active_lookup _ _ _ Hcell) as Hrun; unfold weight in Hrun; cbn in Hrun.
    all: destruct (initState (this m)) eqn:Hst;
      [ destruct Hm as [_ Hact]; lia
      | | destruct Hm as (q & v0 & _ & _ & Hact); lia ].
    + right; right; left. repeat split. eauto 10.
    + right; right; right; left. repeat split. eauto 10.
Qed.

(** Success never leads to [NOT_INITIALIZED], clean machine or not. *)
Lemma success_initializes p m retries a call v :
  heap m !! p = Some (Running retries a call) ->
  initFunction (this m) call = Resolved v ->
  getState (this (settle p m)) = INITIALIZED.
Proof. intros Hp Hf. by rewrite (settle_returns p m retries a call v). Qed.

(** In a clean machine in state [INITIALIZED], as long as [reset()] is not
    called, nothing changes: every caller is handed the promise that holds
    the value and the producer is not called. *)
Lemma clean_initialized_cached m tr :
  clean m -> getState (this m) = INITIALIZED ->
  forallb (fun ev => negb (is_reset ev)) tr = true ->
  exists p v,
    initializationPromise (this m) = Some p /\ heap m !! p = Some (Fulfilled v) /\
    fst (exec m tr) = m /\
    Forall (fun r => handle_of r = Some p /\ receive m r = Got (Resolved v)) (snd (exec m tr)).
Proof.
  unfold getState. intros Hm Hst. pose proof Hm as Hm'. unfold clean in Hm'.
  rewrite Hst in Hm'. destruct Hm' as (p & v & Hp & Hcell & Hact).
  intros Htr. exists p, v. do 2 (split; [done|]).
  assert (Hrecv : forall r, handle_of r = Some p -> receive m r = Got (Resolved v)).
  { intros r Hr. rewrite receive_handle_of, Hr. cbn [receive]. by rewrite Hcell. }
  induction tr as [|ev tr IH]; [by split|].
  cbn [forallb] in Htr. apply andb_prop in Htr as [Hev Htr].
  destruct (IH Htr) as [IH1 IH2]. cbn [exec].
  assert (Hstep : fst (step m ev) = m /\
            forall r, snd (step m ev) = Some r -> handle_of r = Some p).
  { destruct ev as [| | |q]; cbn [step]; try done.
    - rewrite initialize_joins by congruence. cbn. split; [done|]. by intros r [= <-].
    - unfold observe. rewrite initialize_joins by congruence. cbn.
      split; [done|]. by intros r [= <-].
    - cbn. split; [|done]. apply settle_done. intros r a c Hq.
      apply active_lookup in Hq. unfold weight in Hq; cbn in Hq. lia. }
  destruct Hstep as [Hs1 Hs2].
  destruct (step m ev) as [m1 r]. cbn [fst snd] in *. subst m1.
  destruct (exec m tr) as [m2 rs]. cbn [fst snd] in *. split; [done|].
  destruct r as [r|]; [|done]. constructor; [|done].
  split; [by apply Hs2|]. apply Hrecv. by apply Hs2.
Qed.

End Machine.

(** * Executions of the watcher of the command-line tool *)

Module Executions.

Import Cli.


Lemma single_flight_witness :
  exists p,
    Forall (fun r => handle_of r = Some p)
      (snd (exec (boot resolves) [call_initialize; call_observe; call_observe])).
Proof.
  destruct (single_flight resolves [] [call_initialize; call_observe; call_observe] eq_refl)
    as (_ & _ & _ & H & _).
  destruct (H ltac:(discriminate)) as (p & _ & _ & Hp).
  exists p. exact Hp.
Defined.

Lemma initialize_succeeds_on_third_attempt_witness :
  exec (boot succeeds_third)
    [call_initialize; producer_settles 0; producer_settles 0; producer_settles 0]
  = ({| this := {| initState := INITIALIZED;
                   initFunction := succeeds_third;
                   initializationPromise := Some 0%nat |};
        heap := [Fulfilled "0.31.2"];
        invocations := 3 |},
     [Stored (Some 0%nat)]).
Proof.
  exact (proj1 (initialize_succeeds_on_third_attempt (boot succeeds_third)
                  "ETIMEDOUT" "ETIMEDOUT" "0.31.2" eq_refl eq_refl eq_refl eq_refl)).
Defined.

Lemma exhausted_attempt_fails_and_resets_witness :
  getState (this (fst (exec (boot rejects)
    [call_observe; call_initialize; producer_settles 0; producer_settles 0;
     call_observe; producer_settles 0]))) = NOT_INITIALIZED.
Proof.
  destruct (exhausted_attempt_fails_and_resets (boot rejects) call_observe
              [call_initialize] [] [call_observe] "ETIMEDOUT" "ETIMEDOUT" "ETIMEDOUT"
              eq_refl eq_refl eq_refl eq_refl eq_refl eq_refl eq_refl eq_refl)
    as ((rs & Hexec & _) & _ & _).
  cbn [app length heap boot] in Hexec. rewrite Hexec. reflexivity.
Defined.

Lemma one_sequence_unless_reset_in_flight_witness :
  (active (heap (fst (exec (boot resolves)
     [call_initialize; producer_settles 0; call_reset; call_observe]))) <= 1)%nat.
Proof.
  apply (one_sequence_unless_reset_in_flight resolves
           [call_initialize; producer_settles 0; call_reset; call_observe] []).
  reflexivity.
Defined.

(** C6 without the restriction on [reset()] fails: [reset()] during an attempt followed by
    [initialize()] starts a second producer sequence while the first one is
    still in flight. *)
Lemma reset_in_flight_two_sequences :
  ~ (forall (f : producer string string) tr,
       (active (heap (fst (exec (boot f) tr))) <= 1)%nat).
Proof.
  intros H.
  specialize (H resolves [call_initialize; call_reset; call_initialize]).
  vm_compute in H. lia.
Qed.

(** C5, on the code.  [initialize(); reset();] and then the producer of the
    first call resolves: the [then] callback of the promise that [reset()]
    dropped sets the state to [INITIALIZED] while no promise is stored, and
    the next [initialize()] hands out [undefined]. *)
Lemma stale_success_initialized_without_promise :
  let m := fst (exec (boot resolves) [call_initialize; call_reset; producer_settles 0]) in
  getState (this m) = INITIALIZED /\
  initializationPromise (this m) = None /\
  snd (initialize m) = Stored None /\
  receive (fst (initialize m)) (snd (initialize m)) = GotUndefined /\
  invocations (fst (initialize m)) = invocations m.
Proof. vm_compute. repeat split. Qed.

(** C7, on the code.  The callbacks of a promise that [reset()] dropped move
    the state outside the state machine: from [NOT_INITIALIZED] to
    [INITIALIZED] when the dropped attempt succeeds, and from [INITIALIZED]
    to [NOT_INITIALIZED], with no [reset()], when it fails after a later
    attempt has succeeded. *)
Lemma stale_callbacks_leave_state_machine :
  (let m := fst (exec (boot resolves) [call_initialize; call_reset]) in
   getState (this m) = NOT_INITIALIZED /\
   getState (this (fst (step m (producer_settles 0)))) = INITIALIZED) /\
  (let m := fst (exec (boot second_only)
      [call_initialize; call_reset; call_initialize; producer_settles 1;
       producer_settles 0; producer_settles 0]) in
   getState (this m) = INITIALIZED /\
   getState (this (fst (step m (producer_settles 0)))) = NOT_INITIALIZED).
Proof. vm_compute. repeat split. Qed.

(** C4, on the code.  [initialize(); reset(); initialize();] and the second
    attempt succeeds: callers receive the version.  Then the first attempt,
    dropped by the [reset()] before it, fails for the third time.  No
    [reset()] has been called since the success, yet the next [observe()]
    calls the producer again and joins a new promise. *)
Lemma stale_failure_drops_cached_value :
  let m := fst (exec (boot second_only)
     [call_initialize; call_reset; call_initialize; producer_settles 1]) in
  let m' := fst (exec m [producer_settles 0; producer_settles 0; producer_settles 0]) in
  (getState (this m) = INITIALIZED /\
   snd (observe m) = Awaited (Stored (Some 1%nat)) /\
   receive m (snd (observe m)) = Got (Resolved "0.31.2") /\
   invocations (fst (observe m)) = invocations m) /\
  (getState (this m') = NOT_INITIALIZED /\
   snd (observe m') = Awaited (Stored (Some 2%nat)) /\
   receive (fst (observe m')) (snd (observe m')) = Waiting /\
   invocations (fst (observe m')) = S (invocations m')).
Proof. vm_compute. repeat split. Qed.

(** C1, on the code.  [initialize(); reset();] and a first [observe()],
    which finds the state [NOT_INITIALIZED] and starts an attempt.  While
    that attempt is in flight the attempt dropped by the [reset()] fails for
    the third time, and its [catch] callback sets the state back to
    [NOT_INITIALIZED].  A second [observe()], with no [reset()] since the
    first, finds [NOT_INITIALIZED] too: it calls the producer again, next to
    the sequence still in flight, and joins another promise.  The two
    callers end with different values. *)
Lemma stale_failure_splits_callers :
  let m1 := fst (exec (boot two_versions) [call_initialize; call_reset]) in
  let m2 := fst (exec (fst (observe m1))
                   [producer_settles 0; producer_settles 0; producer_settles 0]) in
  let m3 := fst (exec (fst (observe m2)) [producer_settles 1; producer_settles 2]) in
  (getState (this m1) = NOT_INITIALIZED /\
   snd (observe m1) = Awaited (Stored (Some 1%nat)) /\
   active (heap (fst (observe m1))) = 2%nat) /\
  (getState (this m2) = NOT_INITIALIZED /\
   heap m2 !! 1%nat = Some (Running 3 1 1) /\
   snd (observe m2) = Awaited (Stored (Some 2%nat)) /\
   invocations (fst (observe m2)) = S (invocations m2) /\
   active (heap (fst (observe m2))) = 2%nat) /\
  (receive m3 (snd (observe m1)) = Got (Resolved "0.31.2") /\
   receive m3 (snd (observe m2)) = Got (Resolved "0.32.0")).
Proof. vm_compute. repeat split. Qed.

End Executions.

(** * More on the watcher *)

Section Watcher.

Context {T Err : Type}.
Implicit Types (m : machine T Err) (h : list (promise T Err)).
Implicit Types (r : returned) (tr : list event) (p : nat).

Ltac settle_split p m :=
  let r := fresh "retries" in
  let a := fresh "attempt" in
  let c := fresh "call" in
  let Hcell := fresh "Hcell" in
  let Hout := fresh "Hout" in
  unfold settle;
  destruct (heap m !! p) as [[r a c| |]|] eqn:Hcell;
    [ unfold retryFunction_resume;
      destruct (initFunction (this m) c) eqn:Hout;
        [ | destruct (Z.ltb_spec a r) ]
    | .. ].

(** X1.  For a producer that does not call the methods of its watcher (as
    every producer of this embedding): in every state the watcher can reach,
    under any interleaving of calls, resets and completions, no promise is
    stored in state [NOT_INITIALIZED]; a promise of the heap is stored in
    state [PENDING]; and [initialize()] called in a state other than
    [INITIALIZED] hands out a promise, never [undefined]. *)
Theorem reachable_state_and_promise (f : producer T Err) tr :
  let m := fst (exec (boot f) tr) in
  (getState (this m) = NOT_INITIALIZED -> initializationPromise (this m) = None) /\
  (getState (this m) = PENDING ->
     exists p, initializationPromise (this m) = Some p /\ (p < length (heap m))%nat) /\
  (getState (this m) <> INITIALIZED ->
     exists p, handle_of (snd (initialize m)) = Some p /\
       (p < length (heap (fst (initialize m))))%nat).
Proof.
  intros m. assert (Hm : linked m) by apply exec_linked, boot_linked.
  unfold linked, getState in *. repeat split.
  - intros Hst. by rewrite Hst in Hm.
  - intros Hst. by rewrite Hst in Hm.
  - intros Hst. unfold initialize. destruct (initState (this m)) eqn:E; try done; cbn.
    eexists; split; [done|]. rewrite length_app. cbn. lia.
Qed.

(** Where X1 stops.  A producer that called [initialize()] of its own
    watcher from the synchronous part of its first call would find the state
    [PENDING] and no promise stored, and be handed [undefined]. *)
Lemma nested_initialize_undefined (f : producer T Err) tr :
  let m := fst (exec (boot f) tr) in
  getState (this m) = NOT_INITIALIZED ->
  initialize (entered m) = (entered m, Stored None).
Proof.
  intros m Hst. assert (Hm : linked m) by apply exec_linked, boot_linked.
  unfold linked, getState in *. rewrite Hst in Hm.
  unfold initialize, entered. cbn. by rewrite Hm.
Qed.

(** *** The bound on producer calls *)

Lemma spent_total_app h1 h2 : spent_total (h1 ++ h2) = spent_total h1 + spent_total h2.
Proof. induction h1 as [|c h1 IH]; cbn [spent_total app]; lia. Qed.

Lemma spent_total_insert h q (c x : promise T Err) :
  h !! q = Some c -> spent_total (<[q := x]> h) = spent_total h - spent c + spent x.
Proof.
  revert q. induction h as [|c0 h IH]; intros [|q] Hq; try done.
  - injection Hq as ->. simpl. lia.
  - simpl in Hq. specialize (IH q Hq). simpl. lia.
Qed.

Lemma spent_total_bound h : Forall within_bound h -> spent_total h <= 3 * Z.of_nat (length h).
Proof.
  induction 1 as [|c h Hc _ IH]; [done|]. cbn [spent_total length].
  destruct c; cbn in *; lia.
Qed.

Lemma boot_budgeted (f : producer T Err) : budgeted (boot f).
Proof. split; [constructor | done]. Qed.

Lemma step_budgeted m ev : budgeted m -> budgeted (fst (step m ev)).
Proof.
  intros [Hall Hinv]. destruct ev as [| | |p]; cbn [step].
  - unfold initialize. destruct (initState (this m)); cbn; try done.
    split; cbn.
    + apply Forall_app_2; [done|]. constructor; [|done]. cbn. lia.
    + rewrite spent_total_app. cbn. lia.
  - unfold observe, initialize. destruct (initState (this m)); cbn; try done.
    split; cbn.
    + apply Forall_app_2; [done|]. constructor; [|done]. cbn. lia.
    + rewrite spent_total_app. cbn. lia.
  - done.
  - cbn [fst]. settle_split p m; try done.
    all: pose proof (Forall_lookup_1 _ _ _ _ Hall Hcell) as Hc; cbn in Hc.
    all: split; cbn; [apply Forall_insert; [done|]; cbn; lia|].
    all: rewrite (spent_total_insert _ _ _ _ Hcell); cbn; lia.
Qed.

Lemma exec_budgeted m tr : budgeted m -> budgeted (fst (exec m tr)).
Proof.
  revert m. induction tr as [|ev tr IH]; intros m Hm; cbn [exec]; [done|].
  pose proof (step_budgeted m ev Hm) as H1. destruct (step m ev) as [m1 r].
  specialize (IH m1 H1). by destruct (exec m1 tr).
Qed.

(** In total, the producer has been called at most three times the number
    of attempts started. *)
Lemma producer_calls_bounded (f : producer T Err) tr :
  (invocations (fst (exec (boot f) tr)) <= 3 * length (heap (fst (exec (boot f) tr))))%nat.
Proof.
  destruct (exec_budgeted (boot f) tr (boot_budgeted f)) as [Hall Hinv].
  pose proof (spent_total_bound _ Hall). lia.
Qed.

(** *** An attempt and [retryFunction] *)

Lemma exec_settles_silent m k p : snd (exec m (replicate k (producer_settles p))) = [].
Proof.
  revert m. induction k as [|k IH]; intros m; [done|].
  cbn [replicate exec step]. specialize (IH (settle p m)).
  by destruct (exec (settle p m) _).
Qed.

Lemma attempt_runs fuel m a n o calls :
  retryFunction fuel (initFunction (this m)) 3 a (invocations m + n)%nat = Some (o, calls) ->
  (invocations m + n < calls <= invocations m + n + fuel)%nat /\
  fst (exec (retrying m a n)
         (replicate (calls - (invocations m + n)) (producer_settles (length (heap m)))))
    = finished m o calls.
Proof.
  revert a n. induction fuel as [|fuel IH]; intros a n Hrun; [done|].
  cbn [retryFunction] in Hrun. unfold retryFunction_resume in Hrun.
  destruct (initFunction (this m) (invocations m + n)%nat) as [v|e] eqn:Hf.
  - injection Hrun as <- <-. split; [lia|].
    replace (S (invocations m + n) - (invocations m + n))%nat with 1%nat by lia.
    cbn. by rewrite (settle_retrying_resolved m a n v).
  - destruct (Z.ltb_spec a 3) as [Hlt|Hge].
    + replace (S (invocations m + n)) with (invocations m + S n)%nat in Hrun by lia.
      destruct (IH _ _ Hrun) as [Hk Hexec]. split; [lia|].
      replace (calls - (invocations m + n))%nat
        with (S (calls - (invocations m + S n))) by lia.
      cbn [replicate exec step].
      rewrite (settle_retrying_rejected m a n e) by done.
      destruct (exec (retrying m (a + 1) (S n)) _) as [m2 rs]. by cbn in *.
    + injection Hrun as <- <-. split; [lia|].
      replace (S (invocations m + n) - (invocations m + n))%nat with 1%nat by lia.
      cbn. by rewrite (settle_retrying_exhausted m a n e).
Qed.

(** X3.  An attempt started by [initialize()] and left to run does what
    [retryFunction(this.initFunction, 3)] does: it ends after one to three
    completions of the producer, with the result of [retryFunction] and after
    the same calls, and then the state is no longer [PENDING]. *)
Theorem attempt_is_retryFunction m :
  initState (this m) = NOT_INITIALIZED ->
  exists o calls,
    retryFunction 3 (initFunction (this m)) 3 1 (invocations m) = Some (o, calls) /\
    (invocations m < calls <= invocations m + 3)%nat /\
    exec m (call_initialize ::
              replicate (calls - invocations m) (producer_settles (length (heap m))))
      = (finished m o calls, [Stored (Some (length (heap m)))]) /\
    getState (this (finished m o calls)) <> PENDING /\
    receive (finished m o calls) (Stored (Some (length (heap m)))) = Got o.
Proof.
  intros Hst.
  destruct (retryFunction_total 3 (initFunction (this m)) 3 1 (invocations m))
    as (o & calls & Hrun & Hcalls); [unfold retryFunction_fuel; lia|].
  exists o, calls. split; [done|].
  pose proof Hrun as Hrun'.
  replace (invocations m) with (invocations m + 0)%nat in Hrun' at 1 by lia.
  destruct (attempt_runs 3 m 1 0 o calls Hrun') as [Hk Hexec].
  rewrite Nat.add_0_r in Hexec.
  split; [lia|]. split; [|split].
  - cbn [exec step]. rewrite initialize_starts by done. fold (started m).
    rewrite started_retrying.
    pose proof (exec_settles_silent (retrying m 1 0) (calls - invocations m)
                  (length (heap m))) as Hsnd.
    destruct (exec (retrying m 1 0) _) as [m2 rs]. cbn [fst snd] in *. by subst.
  - by destruct o.
  - destruct o; cbn [finished receive heap]; by rewrite lookup_last.
Qed.

(** X4.  For a whole number [retries], at most 2^53:
    [retryFunction(func, retries)] returns the value of the first call of
    [func] that succeeds, provided it is among the first [max(1, retries)]
    calls, and calls [func] no more after it; and whatever [func] does, it
    is called at most [max(1, retries)] times. *)
Theorem retryFunction_first_success fuel (func : producer T Err) retries calls :
  retries <= 2 ^ 53 ->
  (retryFunction_fuel retries 1 <= fuel)%nat ->
  (forall j v,
     (forall i, (i < j)%nat -> exists e, func (calls + i)%nat = Rejected e) ->
     func (calls + j)%nat = Resolved v ->
     Z.of_nat j < Z.max 1 retries ->
     retryFunction fuel func retries 1 calls = Some (Resolved v, (calls + j + 1)%nat)) /\
  (exists o calls',
     retryFunction fuel func retries 1 calls = Some (o, calls') /\
     Z.of_nat (calls' - calls) <= Z.max 1 retries).
Proof.
  intros _ Hfuel. split.
  - intros j v Hfail Hok Hj.
    assert (Hgen : forall j a calls fuel,
      (forall i, (i < j)%nat -> exists e, func (calls + i)%nat = Rejected e) ->
      func (calls + j)%nat = Resolved v ->
      Z.of_nat j <= Z.max 0 (retries - a) ->
      (j < fuel)%nat ->
      retryFunction fuel func retries a calls = Some (Resolved v, (calls + j + 1)%nat)).
    { clear. induction j as [|j IH]; intros a calls fuel Hfail Hok Hj Hfuel.
      - destruct fuel as [|fuel]; [lia|]. rewrite Nat.add_0_r in Hok.
        rewrite (retryFunction_resolved _ _ _ _ _ v) by done.
        by replace (calls + 0 + 1)%nat with (S calls) by lia.
      - destruct fuel as [|fuel]; [lia|].
        destruct (Hfail 0%nat) as [e He]; [lia|]. rewrite Nat.add_0_r in He.
        rewrite (retryFunction_rejected _ _ _ _ _ e) by (done || lia).
        rewrite (IH (a + 1) (S calls) fuel).
        + by replace (S calls + j + 1)%nat with (calls + S j + 1)%nat by lia.
        + intros i Hi. destruct (Hfail (S i)) as [e' He']; [lia|].
          exists e'. by replace (S calls + i)%nat with (calls + S i)%nat by lia.
        + by replace (S calls + j)%nat with (calls + S j)%nat by lia.
        + lia.
        + lia. }
    apply Hgen; try done; unfold retryFunction_fuel in Hfuel; lia.
  - destruct (retryFunction_total fuel func retries 1 calls Hfuel) as (o & n & Hrun & Hn).
    exists o, n. split; [done|]. unfold retryFunction_fuel in Hn. lia.
Qed.

(** *** Promises that have settled, and promises that [reset()] dropped *)

(** X5.  A caller that has received a value or an error keeps it: no later
    call, completion or [reset()] changes what a settled promise holds. *)
Theorem received_is_permanent m tr r (o : settled T Err) :
  receive m r = Got o -> receive (fst (exec m tr)) r = Got o.
Proof.
  revert m. induction tr as [|ev tr IH]; intros m Hr; cbn [exec]; [done|].
  pose proof (receive_stable m ev r o Hr) as H1.
  destruct (step m ev) as [m1 x]. cbn [fst] in H1. specialize (IH m1 H1).
  by destruct (exec m1 tr).
Qed.

Lemma settle_run_time m1 m2 p :
  run_time m1 = run_time m2 -> run_time (settle p m1) = run_time (settle p m2).
Proof.
  unfold run_time. intros [= Hf Hh Hi]. unfold settle. rewrite Hh, Hf.
  destruct (heap m2 !! p) as [[ret a c| |]|]; cbn; try congruence.
  destruct (retryFunction_resume ret a (initFunction (this m2) c)); cbn; congruence.
Qed.

(** X6.  [reset()] cancels nothing.  The completions of the producer take
    the promises made before the [reset()] through the same retries, with
    the same calls of the producer and to the same results, as if [reset()]
    had not been called; a caller joined to such a promise receives what it
    would have received. *)
Theorem reset_does_not_cancel m (ps : list nat) r :
  let dropped := {| this := reset (this m); heap := heap m; invocations := invocations m |} in
  run_time (fst (exec dropped (producer_settles <$> ps)))
    = run_time (fst (exec m (producer_settles <$> ps))) /\
  receive (fst (exec dropped (producer_settles <$> ps))) r
    = receive (fst (exec m (producer_settles <$> ps))) r.
Proof.
  intros dropped.
  assert (Hgen : forall m1 m2, run_time m1 = run_time m2 ->
    run_time (fst (exec m1 (producer_settles <$> ps)))
      = run_time (fst (exec m2 (producer_settles <$> ps)))).
  { induction ps as [|p ps IH]; intros m1 m2 H12; [done|].
    cbn [fmap list_fmap exec step].
    specialize (IH _ _ (settle_run_time m1 m2 p H12)).
    destruct (exec (settle p m1) _), (exec (settle p m2) _). by cbn in *. }
  assert (Hrt : run_time (fst (exec dropped (producer_settles <$> ps)))
                = run_time (fst (exec m (producer_settles <$> ps)))) by by apply Hgen.
  split; [done|].
  unfold run_time in Hrt. injection Hrt as _ Hheap _.
  rewrite !(receive_handle_of _ r). destruct (handle_of r); [|done].
  cbn [receive]. by rewrite Hheap.
Qed.

(** *** [initializeTeaCli] *)

Lemma loaded_clean (f : producer T Err) : clean (loaded f).
Proof. apply initialize_clean, boot_clean. Qed.

Lemma initializeTeaCli_clean binary m : clean m -> clean (fst (initializeTeaCli binary m)).
Proof.
  intros Hm. unfold initializeTeaCli, observe.
  match goal with |- context [initialize ?x] => set (m1 := x) end.
  assert (Hm1 : clean m1).
  { subst m1. destruct (bool_decide (getState (this m) = INITIALIZED)) eqn:Hst,
      binary; cbn; try done.
    apply reset_clean; [done|]. apply bool_decide_eq_true in Hst. congruence. }
  pose proof (initialize_clean m1 Hm1). by destruct (initialize m1).
Qed.

Lemma tea_exec_clean m (tr : list tea_event) : clean m -> clean (fst (tea_exec m tr)).
Proof.
  revert m. induction tr as [|ev tr IH]; intros m Hm; cbn [tea_exec]; [done|].
  assert (H1 : clean (fst (tea_step m ev))).
  { destruct ev as [b|p]; cbn [tea_step].
    - pose proof (initializeTeaCli_clean b m Hm). by destruct (initializeTeaCli b m).
    - by apply settle_clean. }
  destruct (tea_step m ev) as [m1 r]. specialize (IH m1 H1). by destruct (tea_exec m1 tr).
Qed.

(** X7.  As long as only the module uses its watcher (the call of
    [initialize()] at load time, calls of [initializeTeaCli()], completions
    of the producer), [reset()] is never called during an attempt, and so:
    at most one producer sequence is in flight; none is in flight and no
    promise is stored in state [NOT_INITIALIZED]; the stored promise is the
    one in flight in state [PENDING]; and in state [INITIALIZED] the stored
    promise holds a value. *)
Theorem module_use_keeps_single_flight (f : producer T Err) (tr : list tea_event) :
  let m := fst (tea_exec (loaded f) tr) in
  (active (heap m) <= 1)%nat /\
  (getState (this m) = NOT_INITIALIZED ->
     initializationPromise (this m) = None /\ active (heap m) = 0%nat) /\
  (getState (this m) = PENDING ->
     exists p retries a call,
       initializationPromise (this m) = Some p /\
       heap m !! p = Some (Running retries a call) /\ active (heap m) = 1%nat) /\
  (getState (this m) = INITIALIZED ->
     exists p v,
       initializationPromise (this m) = Some p /\
       heap m !! p = Some (Fulfilled v) /\ active (heap m) = 0%nat).
Proof.
  intros m. assert (Hm : clean m) by apply tea_exec_clean, loaded_clean.
  split; [by apply clean_active|].
  unfold clean, getState in *.
  split; [|split]; intros Hst; by rewrite Hst in Hm.
Qed.

Lemma initializeTeaCli_handle binary m :
  clean m ->
  exists p, handle_of (snd (initializeTeaCli binary m)) = Some p /\
    (p < length (heap (fst (initializeTeaCli binary m))))%nat.
Proof.
  intros Hm. pose proof (initializeTeaCli_clean binary m Hm) as Hc.
  unfold initializeTeaCli, observe in *.
  match goal with |- context [initialize ?x] => set (m1 := x) in * end.
  unfold initialize in *. unfold clean in Hc.
  destruct (initState (this m1)) eqn:Hst; cbn in *; rewrite ?Hst in Hc.
  - eexists. split; [done|]. rewrite length_app. cbn. lia.
  - destruct Hc as (p & ? & ? & ? & -> & Hp & _). exists p. split; [done|].
    by apply lookup_lt_Some in Hp.
  - destruct Hc as (p & ? & -> & Hp & _). exists p. split; [done|].
    by apply lookup_lt_Some in Hp.
Qed.

Lemma tea_step_heap_length m (ev : tea_event) :
  (length (heap m) <= length (heap (fst (tea_step m ev))))%nat.
Proof.
  destruct ev as [b|p]; cbn [tea_step].
  - unfold initializeTeaCli, observe, initialize.
    destruct (bool_decide _ && negb b); cbn;
      repeat (match goal with |- context [match ?x with _ => _ end] => destruct x end);
      cbn; rewrite ?length_app; cbn; lia.
  - cbn [fst]. settle_split p m; cbn; rewrite ?length_insert; lia.
Qed.

Lemma tea_exec_heap_length m (tr : list tea_event) :
  (length (heap m) <= length (heap (fst (tea_exec m tr))))%nat.
Proof.
  revert m. induction tr as [|ev tr IH]; intros m; cbn [tea_exec]; [done|].
  pose proof (tea_step_heap_length m ev) as H1.
  destruct (tea_step m ev) as [m1 r]. specialize (IH m1).
  destruct (tea_exec m1 tr). cbn in *. lia.
Qed.

(** X8.  In those executions every call of [initializeTeaCli()] is handed
    a promise of the heap: no caller is ever handed, or ever receives,
    [undefined]. *)
Theorem module_use_never_undefined (f : producer T Err) (tr : list tea_event) :
  Forall (fun r =>
            (exists p, handle_of r = Some p /\
               (p < length (heap (fst (tea_exec (loaded f) tr))))%nat) /\
            forall m' : machine T Err, receive m' r <> GotUndefined)
         (snd (tea_exec (loaded f) tr)).
Proof.
  assert (Hgen : forall m, clean m ->
    Forall (fun r => exists p, handle_of r = Some p /\
                       (p < length (heap (fst (tea_exec m tr))))%nat)
           (snd (tea_exec m tr))).
  { induction tr as [|ev tr IH]; intros m Hm; cbn [tea_exec]; [constructor|].
    assert (H1 : clean (fst (tea_step m ev))).
    { destruct ev as [b|p]; cbn [tea_step].
      - pose proof (initializeTeaCli_clean b m Hm). by destruct (initializeTeaCli b m).
      - by apply settle_clean. }
    assert (Hr : forall r, snd (tea_step m ev) = Some r ->
              exists p, handle_of r = Some p /\
                (p < length (heap (fst (tea_step m ev))))%nat).
    { destruct ev as [b|p]; cbn [tea_step]; [|done].
      pose proof (initializeTeaCli_handle b m Hm) as Hh.
      destruct (initializeTeaCli b m) as [m1 r1]. cbn in *. by intros r [= <-]. }
    pose proof (tea_exec_heap_length (fst (tea_step m ev)) tr) as Hlen.
    destruct (tea_step m ev) as [m1 r]. cbn [fst snd] in *.
    specialize (IH m1 H1).
    destruct (tea_exec m1 tr) as [m2 rs]. cbn [fst snd] in *.
    destruct r as [r|]; [|done]. constructor; [|done].
    destruct (Hr r eq_refl) as (p & Hp & Hlt). exists p. split; [done|]. lia. }
  eapply Forall_impl; [apply Hgen, loaded_clean|].
  intros r (p & Hp & Hlt). split; [by exists p|].
  intros m'. rewrite receive_handle_of, Hp. cbn [receive].
  by destruct (heap m' !! p) as [[]|].
Qed.

(** X9.  [initializeTeaCli()] starts an attempt, with one call of the
    producer and a new promise, exactly when the state is [NOT_INITIALIZED],
    or is [INITIALIZED] while the binary is missing; the cached promise is
    then dropped from the watcher but left as it is in the heap.  In every
    other case, also when the binary is missing during an attempt, it
    changes nothing and hands out the stored promise. *)
Theorem initializeTeaCli_restarts binary m :
  initializeTeaCli binary m =
    if bool_decide (getState (this m) = NOT_INITIALIZED)
       || (bool_decide (getState (this m) = INITIALIZED) && negb binary)
    then
      ({| this := {| initState := PENDING;
                     initFunction := initFunction (this m);
                     initializationPromise := Some (length (heap m)) |};
          heap := heap m ++ [Running 3 1 (invocations m)];
          invocations := S (invocations m) |},
       Awaited (Stored (Some (length (heap m)))))
    else (m, Awaited (Stored (initializationPromise (this m)))).
Proof.
  unfold initializeTeaCli, observe, initialize, getState.
  destruct (initState (this m)) eqn:Hst, binary;
    repeat case_bool_decide; try congruence; cbn; rewrite ?Hst; done.
Qed.

End Watcher.

(** * The version read from [versions.txt] *)

Module JsFacts.

Import Js.

Implicit Types (s t : str) (c sep : N).

Lemma trimStart_nil_iff s : trimStart s = [] <-> forallb isWhiteSpace s = true.
Proof.
  induction s as [|c s IH]; cbn [trimStart forallb]; [done|].
  destruct (isWhiteSpace c); cbn; [done|]. split; discriminate.
Qed.

Lemma trimStart_head s c t : trimStart s = c :: t -> isWhiteSpace c = false.
Proof.
  induction s as [|c0 s IH]; cbn [trimStart]; [done|].
  destruct (isWhiteSpace c0) eqn:E; [done|]. by intros [= <- <-].
Qed.

Lemma trimStart_suffix s :
  exists ws, s = ws ++ trimStart s /\ forallb isWhiteSpace ws = true.
Proof.
  induction s as [|c s (ws & Hs & Hws)]; cbn [trimStart]; [by exists []|].
  destruct (isWhiteSpace c) eqn:E.
  - exists (c :: ws). cbn [forallb app]. rewrite E, Hws. by rewrite <- Hs.
  - by exists [].
Qed.

Lemma trimStart_app_ws ws s :
  forallb isWhiteSpace ws = true -> trimStart (ws ++ s) = trimStart s.
Proof.
  induction ws as [|c ws IH]; cbn [forallb app trimStart]; [done|].
  intros [-> Hws]%andb_prop. by apply IH.
Qed.

Lemma trimStart_app_keep s c t :
  isWhiteSpace c = false -> trimStart (s ++ c :: t) = trimStart s ++ c :: t.
Proof.
  intros Hc. induction s as [|c0 s IH]; cbn [app trimStart].
  - by rewrite Hc.
  - by destruct (isWhiteSpace c0).
Qed.

Lemma forallb_reverse (f : N -> bool) s : forallb f (reverse s) = forallb f s.
Proof.
  induction s as [|c s IH]; [done|].
  rewrite reverse_cons, forallb_app, IH. cbn. by rewrite andb_true_r, andb_comm.
Qed.

Lemma trimEnd_nil_iff s : trimEnd s = [] <-> forallb isWhiteSpace s = true.
Proof.
  unfold trimEnd. rewrite <- (forallb_reverse _ s), <- trimStart_nil_iff.
  split; [|by intros ->].
  intros H. apply (f_equal reverse) in H. by rewrite reverse_involutive in H.
Qed.

Lemma trimEnd_app_ws s ws :
  forallb isWhiteSpace ws = true -> trimEnd (s ++ ws) = trimEnd s.
Proof.
  intros Hws. unfold trimEnd. rewrite reverse_app, trimStart_app_ws; [done|].
  by rewrite forallb_reverse.
Qed.

Lemma trimEnd_snoc_keep s c : isWhiteSpace c = false -> trimEnd (s ++ [c]) = s ++ [c].
Proof.
  intros Hc. unfold trimEnd. rewrite reverse_app. cbn [reverse app trimStart].
  change (reverse [c]) with [c]. cbn [app trimStart]. rewrite Hc.
  change (c :: reverse s) with (reverse [c] ++ reverse s).
  by rewrite <- reverse_app, reverse_involutive.
Qed.

Lemma trimEnd_last s t c : trimEnd s = t ++ [c] -> isWhiteSpace c = false.
Proof.
  unfold trimEnd. intros H. apply (f_equal reverse) in H.
  rewrite reverse_involutive, reverse_app in H. by apply trimStart_head in H.
Qed.

Lemma trimEnd_prefix s :
  exists ws, s = trimEnd s ++ ws /\ forallb isWhiteSpace ws = true.
Proof.
  destruct (trimStart_suffix (reverse s)) as (ws & Hs & Hws).
  exists (reverse ws). split; [|by rewrite forallb_reverse].
  unfold trimEnd. rewrite <- reverse_app, <- Hs. by rewrite reverse_involutive.
Qed.

Lemma trim_nil_iff s : trim s = [] <-> forallb isWhiteSpace s = true.
Proof.
  unfold trim. split.
  - intros H. apply trimEnd_nil_iff in H. apply trimStart_nil_iff.
    destruct (trimStart s) as [|c t] eqn:E; [done|].
    apply trimStart_head in E. cbn [forallb] in H. by rewrite E in H.
  - intros H. apply trimStart_nil_iff in H. by rewrite H.
Qed.

(** *** [split] *)

Lemma split_nonempty sep s : split sep s <> [].
Proof.
  destruct s as [|c s]; cbn [split]; [done|].
  destruct (c =? sep)%N; [done|]. by destruct (split sep s).
Qed.

Lemma split_whole sep s : sep ∉ s -> split sep s = [s].
Proof.
  induction s as [|c s IH]; [done|]. intros Hs.
  apply not_elem_of_cons in Hs as [Hc Hs]. cbn [split].
  destruct (N.eqb_spec c sep); [congruence|]. by rewrite IH.
Qed.

Lemma split_app_sep sep s t : split sep (s ++ sep :: t) = split sep s ++ split sep t.
Proof.
  induction s as [|c s IH]; cbn [app split].
  - by rewrite N.eqb_refl.
  - rewrite IH. destruct (c =? sep)%N; [done|].
    pose proof (split_nonempty sep s). by destruct (split sep s).
Qed.

Lemma last_occurrence sep s :
  sep ∉ s \/ exists a b, s = a ++ sep :: b /\ sep ∉ b.
Proof.
  induction s as [|c s [IH|(a & b & -> & Hb)]].
  - left. apply not_elem_of_nil.
  - destruct (decide (c = sep)) as [->|Hne].
    + right. by exists [], s.
    + left. by apply not_elem_of_cons.
  - right. by exists (c :: a), b.
Qed.

Lemma last_split sep s t : sep ∉ t -> last (split sep (s ++ sep :: t)) = Some t.
Proof.
  intros Ht. rewrite split_app_sep, (split_whole sep t Ht).
  by rewrite last_snoc.
Qed.

End JsFacts.

Module VersionFacts.

Import Js Install JsFacts.

Lemma trim_decompose (s : str) :
  exists ws1 ws2,
    s = ws1 ++ trim s ++ ws2 /\
    forallb isWhiteSpace ws1 = true /\ forallb isWhiteSpace ws2 = true.
Proof.
  destruct (trimStart_suffix s) as (ws1 & Hs & H1).
  destruct (trimEnd_prefix (trimStart s)) as (ws2 & Ht & H2).
  exists ws1, ws2. unfold trim. by rewrite <- Ht, <- Hs.
Qed.

Lemma trim_last (s t : str) c : trim s = t ++ [c] -> isWhiteSpace c = false.
Proof. unfold trim. apply trimEnd_last. Qed.

(** The trimmed body, cut at its last line feed. *)
Lemma lastVersion_cases chunks :
  ((LF ∉ trim (join chunks)) /\ lastVersion chunks = Some (trim (join chunks))) \/
  (exists a b, trim (join chunks) = a ++ LF :: b /\ (LF ∉ b) /\ b <> [] /\
     lastVersion chunks = Some b).
Proof.
  unfold lastVersion, at_last.
  destruct (last_occurrence LF (trim (join chunks))) as [Hno|(a & b & Ht & Hb)].
  - left. split; [done|]. by rewrite split_whole.
  - right. exists a, b. rewrite Ht, last_split by done. repeat split; try done.
    intros ->. apply (trim_last _ a LF) in Ht. by vm_compute in Ht.
Qed.

(** X10.  [chunks.join("").trim().split("\n").at(-1)] is always a string,
    never [undefined], and it is the empty string exactly when the body
    consists of white space only (the empty body included): these are the
    bodies [installTeaCli] rejects as an invalid [versions.txt]. *)
Theorem lastVersion_empty_iff_blank chunks :
  exists v, lastVersion chunks = Some v /\
    (v = [] <-> forallb isWhiteSpace (join chunks) = true).
Proof.
  destruct (lastVersion_cases chunks) as [[_ Hv]|(a & b & Ht & _ & Hb & Hv)].
  - eexists. split; [done|]. apply trim_nil_iff.
  - exists b. split; [done|]. split; [done|].
    intros Hblank%trim_nil_iff. rewrite Hblank in Ht. by destruct a.
Qed.

(** X11.  The version taken from the body is its last line: it contains no
    line feed, it does not end in white space, only white space follows it
    in the body, and what precedes it is white space only or ends with a
    line feed. *)
Theorem lastVersion_is_last_line chunks :
  exists v pre post,
    lastVersion chunks = Some v /\
    join chunks = pre ++ v ++ post /\
    forallb isWhiteSpace post = true /\
    (forallb isWhiteSpace pre = true \/ last pre = Some LF) /\
    (LF ∉ v) /\
    (forall c, last v = Some c -> isWhiteSpace c = false).
Proof.
  destruct (trim_decompose (join chunks)) as (ws1 & ws2 & Hs & H1 & H2).
  destruct (lastVersion_cases chunks) as [[Hno Hv]|(a & b & Ht & Hb & Hne & Hv)].
  - exists (trim (join chunks)), ws1, ws2. repeat split; auto.
    intros c [t Hc]%last_Some. by apply trim_last in Hc.
  - exists b, (ws1 ++ a ++ [LF]), ws2. repeat split; auto.
    + rewrite Hs at 1. rewrite Ht. by rewrite <- !app_assoc.
    + right. by rewrite !app_assoc, last_snoc.
    + intros c [t Hc]%last_Some. subst b.
      change (LF :: t ++ [c]) with ((LF :: t) ++ [c]) in Ht.
      rewrite app_assoc in Ht. by apply trim_last in Ht.
Qed.

(** X12.  A body that ends with the line [line], itself free of line feeds
    and of white space at either end, followed by white space only (a final
    line feed, say), gives [line], however the body is cut into chunks. *)
Theorem lastVersion_of_last_line chunks pre line post :
  join chunks = pre ++ line ++ post ->
  pre = [] \/ last pre = Some LF ->
  LF ∉ line ->
  isWhiteSpace <$> head line = Some false ->
  isWhiteSpace <$> last line = Some false ->
  forallb isWhiteSpace post = true ->
  lastVersion chunks = Some line.
Proof.
  intros Hbody Hpre Hlf Hhead Hlast Hpost.
  destruct line as [|c l]; [done|]. cbn in Hhead. injection Hhead as Hc.
  destruct (last (c :: l)) as [d|] eqn:Hd; [|done]. cbn in Hlast. injection Hlast as Hdws.
  apply last_Some in Hd as [l' Hl'].
  unfold lastVersion, at_last. rewrite Hbody.
  assert (Htrim : trim (pre ++ (c :: l) ++ post) = trimStart pre ++ c :: l).
  { unfold trim. cbn [app]. rewrite trimStart_app_keep by done.
    change (trimStart pre ++ c :: l ++ post) with (trimStart pre ++ (c :: l) ++ post).
    rewrite app_assoc, trimEnd_app_ws by done.
    rewrite Hl', app_assoc. by apply trimEnd_snoc_keep. }
  rewrite Htrim.
  destruct (trimStart_suffix pre) as (ws & Hws & _).
  destruct (trimStart pre) as [|x pre2] eqn:Hp2.
  - cbn [app]. by rewrite split_whole.
  - assert (Hl : last (x :: pre2) = Some LF).
    { destruct Hpre as [->|Hl]; [by destruct ws|].
      rewrite Hws in Hl. by rewrite last_app_cons in Hl. }
    apply last_Some in Hl as [a Ha]. rewrite Ha, <- app_assoc. cbn [app].
    by apply last_split.
Qed.

End VersionFacts.

(** * The installer *)

Module InstallFacts.

Import Js Install JsFacts VersionFacts.

#[local] Arguments lit : simpl never.

(** Unfolds a run of the installer into its cases. *)
Ltac run_cases :=
  unfold installTeaCli, midfix, fetchVersion, extract, perform, throw;
  unfold mbind, run_bind, mret, run_ret;
  repeat (case_match; simplify_eq/=);
  repeat match goal with
    | H : bool_decide _ = true |- _ => apply bool_decide_eq_true in H
    | H : bool_decide _ = false |- _ => apply bool_decide_eq_false in H
    end.

(** X13.  When [installTeaCli()] resolves with [v]: the architecture is
    [arm64] or [x64]; [versions.txt] was answered with status 200 and [v] is
    its last line, not empty; the archive requested is the one of [v], it
    was answered with status 200 and [tar] exited with code 0; and what was
    done is, in this order: the two requests around the creation of the
    directory, [tar], and the two links [v*] and [v0] to [v<v>], each
    unlinked first if [existsSync] finds it, between a [chdir] into
    [tea.xyz] and a [chdir] back. *)
Theorem installTeaCli_resolves sys log v :
  installTeaCli sys = (log, Resolves v) ->
  let PREFIX := template (HOME sys) ++ lit "/.tea" in
  exists mid chunks body,
    ((arch sys = lit "arm64" /\ mid = platform sys ++ lit "/aarch64") \/
     (arch sys = lit "x64" /\ mid = platform sys ++ lit "/x86-64")) /\
    https_get sys (versionsUrl mid) = Response 200 chunks /\
    lastVersion chunks = Some v /\ v <> [] /\
    https_get sys (tarballUrl mid v) = Response 200 body /\
    tar_close sys = Some 0 /\
    log = [Get (versionsUrl mid); Mkdir PREFIX; Get (tarballUrl mid v); SpawnTar PREFIX;
           Chdir (PREFIX ++ lit "/tea.xyz")]
          ++ (if existsSync sys (lit "v*") then [Unlink (lit "v*")] else [])
          ++ [Symlink (lit "v" ++ v) (lit "v*")]
          ++ (if existsSync sys (lit "v0") then [Unlink (lit "v0")] else [])
          ++ [Symlink (lit "v" ++ v) (lit "v0"); Chdir (cwd sys)].
Proof.
  intros H PREFIX. subst PREFIX. revert H. run_cases.
  all: intros; simplify_eq/=.
  all: repeat match goal with
         | H : ¬ (?x ≠ 200) |- _ => assert (x = 200) as -> by lia; clear H
         end.
  all: eexists _, _, _; repeat split; eauto.
Qed.

(** X14.  On an architecture other than [arm64] and [x64] the installer
    does nothing at all, no request included, and rejects with
    [unsupported platform: <platform>/<arch>]. *)
Theorem installTeaCli_unsupported sys :
  arch sys <> lit "arm64" ->
  arch sys <> lit "x64" ->
  installTeaCli sys =
    ([], Rejects (Error (lit "unsupported platform: " ++ platform sys ++ lit "/" ++ arch sys))).
Proof. intros H1 H2. run_cases. done. Qed.

(** X15.  When [versions.txt] is answered with status 200 and a body of
    white space only, the installer has made that one request and nothing
    else, and rejects with [invalid versions.txt for tea/cli]. *)
Theorem installTeaCli_blank_versions sys mid chunks :
  midfix sys = ([], Resolves mid) ->
  https_get sys (versionsUrl mid) = Response 200 chunks ->
  forallb isWhiteSpace (join chunks) = true ->
  installTeaCli sys =
    ([Get (versionsUrl mid)], Rejects (Error (lit "invalid versions.txt for tea/cli"))).
Proof.
  intros Hmid Hget Hblank.
  destruct (lastVersion_empty_iff_blank chunks) as (v & Hv & Hiff).
  apply Hiff in Hblank as ->.
  unfold installTeaCli, mbind, run_bind. rewrite Hmid. unfold fetchVersion.
  rewrite Hget. cbn. by rewrite Hv.
Qed.

(** X16.  The installer writes nothing before it has a version: whenever
    it has done anything other than a request (created the directory, run
    [tar], changed directory, touched a link), [versions.txt] had been
    answered with status 200 and a last line that is not empty. *)
Theorem installTeaCli_writes_need_version sys a :
  a ∈ fst (installTeaCli sys) ->
  is_get a = false ->
  exists mid chunks c s,
    midfix sys = ([], Resolves mid) /\
    https_get sys (versionsUrl mid) = Response 200 chunks /\
    lastVersion chunks = Some (c :: s).
Proof.
  run_cases.
  all: repeat match goal with
         | H : ¬ (?x ≠ 200) |- _ => assert (x = 200) as -> by lia; clear H
         end.
  all: intros Hin Hget.
  all: try (eexists _, _, _, _; repeat split; eauto; fail).
  all: repeat (apply elem_of_cons in Hin as [->|Hin]); try done.
  all: by apply elem_of_nil in Hin.
Qed.

(** X17.  Unless [tar] exits with code 0 the installer does not resolve
    and leaves the links alone: it neither changes directory nor unlinks nor
    links anything. *)
Theorem installTeaCli_tar_failure sys :
  tar_close sys <> Some 0 ->
  Forall (fun a => touches_links a = false) (fst (installTeaCli sys)) /\
  (forall v, snd (installTeaCli sys) <> Resolves v).
Proof.
  intros Htar. run_cases; try done.
  all: split; [repeat constructor | done].
Qed.

(** X18.  The working directory.  It is where it was when the installer
    resolves, and whenever the installer has not changed into [tea.xyz].
    When it has and then does not resolve (an [unlink], a [symlink] or the
    [chdir] back threw), the process is left in [tea.xyz]. *)
Theorem installTeaCli_working_directory sys log o :
  installTeaCli sys = (log, o) ->
  let there := (template (HOME sys) ++ lit "/.tea") ++ lit "/tea.xyz" in
  (Chdir there ∉ log -> cwd_after (cwd sys) log = cwd sys) /\
  (forall v, o = Resolves v -> cwd_after (cwd sys) log = cwd sys) /\
  (Chdir there ∈ log -> (forall v, o <> Resolves v) -> cwd_after (cwd sys) log = there).
Proof.
  intros H there. subst there. revert H. run_cases.
  all: intros; simplify_eq/=.
  all: repeat split; try done.
  all: rewrite ?elem_of_cons, ?elem_of_nil; intuition (congruence || eauto).
Qed.

Section Producer.

Variable path_join : str -> str -> str.
Variable getTeaPath : str.
Variable semver : Type.
Variable semverParse : str -> option semver.
Variable toString : semver -> str.

(** X19.  When [bin/tea] is found under the prefix, the producer of the
    watcher does nothing to the world, no request and no write; it resolves
    exactly when the link at the prefix can be read and its target parses to
    a version that prints as a string that is not empty, and then with that
    string. *)
Theorem cliProducer_binary_present sys :
  existsSync sys (path_join (teaCliPrefix path_join getTeaPath) (lit "bin/tea")) = true ->
  fst (cliProducer path_join getTeaPath semver semverParse toString sys) = [] /\
  (forall v,
     snd (cliProducer path_join getTeaPath semver semverParse toString sys) = Resolves v <->
     exists dir sv,
       readlinkSync sys (teaCliPrefix path_join getTeaPath) = inr dir /\
       semverParse dir = Some sv /\ toString sv = v /\ v <> []).
Proof.
  unfold cliProducer. intros ->. cbn [negb].
  destruct (readlinkSync sys _) as [code|dir] eqn:Hlink; cbn.
  { split; [done|]. intros v. split; [done|]. intros (? & ? & ? & _). congruence. }
  destruct (semverParse dir) as [sv|] eqn:Hsv; cbn.
  2: { split; [done|]. intros v. split; [done|].
       intros (? & ? & ? & ? & _). congruence. }
  destruct (toString sv) as [|c s] eqn:Hs; cbn.
  - split; [done|]. intros v. split; [done|].
    intros (? & ? & ? & ? & ? & ?). congruence.
  - split; [done|]. intros v. split.
    + intros [= <-]. by exists dir, sv.
    + intros (? & ? & ? & ? & ? & _). congruence.
Qed.

End Producer.

End InstallFacts.

(** * The calls of the producer, attempt by attempt *)

Section CallsPerAttempt.

Context {T Err : Type}.
Implicit Types (m : machine T Err) (tr : list event) (p q : nat) (ps : list nat).

Lemma calls_by_app p ps1 ps2 :
  calls_by p (ps1 ++ ps2) = (calls_by p ps1 + calls_by p ps2)%nat.
Proof. induction ps1 as [|q ps1 IH]; cbn [calls_by app]; lia. Qed.

Lemma calls_by_other p q ps : q <> p -> calls_by p (ps ++ [q]) = calls_by p ps.
Proof.
  intros Hne. rewrite calls_by_app. cbn [calls_by].
  destruct (decide (q = p)); [done|lia].
Qed.

Lemma calls_by_self p ps : calls_by p (ps ++ [p]) = S (calls_by p ps).
Proof.
  rewrite calls_by_app. cbn [calls_by]. destruct (decide (p = p)); [lia|done].
Qed.

Lemma boot_attributed (f : producer T Err) : attributed (boot f) [].
Proof. split; [done|]. by intros p. Qed.

Lemma start_attributed m ps :
  attributed m ps -> attributed (started m) (ps ++ [length (heap m)]).
Proof.
  intros [Hlen Hp]. split; [rewrite length_app; cbn; lia|].
  intros p. specialize (Hp p). cbn [started heap].
  destruct (decide (length (heap m) = p)) as [<-|Hne].
  - rewrite lookup_last, calls_by_self.
    rewrite lookup_ge_None_2 in Hp by lia. rewrite Hp. lia.
  - rewrite calls_by_other by done.
    destruct (heap m !! p) as [c|] eqn:Hc.
    + by rewrite (lookup_app_l_Some _ _ _ _ Hc).
    + apply lookup_ge_None_1 in Hc.
      rewrite lookup_ge_None_2; [done|]. rewrite length_app. cbn. lia.
Qed.

Lemma settle_attributed m ps q :
  attributed m ps ->
  attributed (settle q m)
    (ps ++ match caller_of m (producer_settles q) with Some p => [p] | None => [] end).
Proof.
  intros [Hlen Hp]. cbn [caller_of]. unfold settle.
  destruct (heap m !! q) as [[r a c| |]|] eqn:Hcell; rewrite ?app_nil_r; try by split.
  pose proof (Hp q) as Hq. rewrite Hcell in Hq. destruct Hq as (-> & Hcount & Ha).
  pose proof (lookup_lt_Some _ _ _ Hcell) as Hlt.
  unfold retryFunction_resume.
  destruct (initFunction (this m) c) as [v|e]; [|destruct (Z.ltb_spec a 3)];
    unfold attributed; cbn [heap invocations]; rewrite ?app_nil_r.
  - split; [done|]. intros p. specialize (Hp p).
    destruct (decide (p = q)) as [->|Hne].
    + rewrite list_lookup_insert_eq by done. lia.
    + by rewrite list_lookup_insert_ne.
  - split; [rewrite length_app; cbn; lia|]. intros p. specialize (Hp p).
    destruct (decide (p = q)) as [->|Hne].
    + rewrite list_lookup_insert_eq by done. rewrite calls_by_self. lia.
    + rewrite list_lookup_insert_ne by done. by rewrite calls_by_other.
  - split; [done|]. intros p. specialize (Hp p).
    destruct (decide (p = q)) as [->|Hne].
    + rewrite list_lookup_insert_eq by done. lia.
    + by rewrite list_lookup_insert_ne.
Qed.

Lemma step_attributed m ps ev :
  attributed m ps ->
  attributed (fst (step m ev))
    (ps ++ match caller_of m ev with Some p => [p] | None => [] end).
Proof.
  intros Hm. destruct ev as [| | |q].
  - cbn [step caller_of]. unfold initialize.
    destruct (initState (this m)); cbn [fst]; rewrite ?app_nil_r; try done.
    by apply start_attributed.
  - cbn [step caller_of]. unfold observe, initialize.
    destruct (initState (this m)); cbn [fst]; rewrite ?app_nil_r; try done.
    by apply start_attributed.
  - cbn. by rewrite app_nil_r.
  - by apply settle_attributed.
Qed.

Lemma exec_attributed m ps tr :
  attributed m ps -> attributed (fst (exec m tr)) (ps ++ callers m tr).
Proof.
  revert m ps. induction tr as [|ev tr IH]; intros m ps Hm; cbn [exec callers].
  - by rewrite app_nil_r.
  - pose proof (step_attributed m ps ev Hm) as H1.
    destruct (step m ev) as [m1 r]. cbn [fst] in *.
    specialize (IH m1 _ H1). rewrite <- app_assoc in IH.
    by destruct (exec m1 tr).
Qed.

(** X2.  Whatever happens to the watcher, resets included: every call of
    the producer is made by the sequence of one attempt, and each attempt
    started so far has made at least one call and at most three; one that is
    still running has made as many as its attempt number. *)
Theorem producer_calls_per_attempt (f : producer T Err) tr p :
  let m := fst (exec (boot f) tr) in
  let ps := callers (boot f) tr in
  length ps = invocations m /\
  (calls_by p ps <= 3)%nat /\
  ((p < length (heap m))%nat -> (1 <= calls_by p ps)%nat) /\
  ((length (heap m) <= p)%nat -> calls_by p ps = 0%nat) /\
  (forall retries currentAttempt call,
     heap m !! p = Some (Running retries currentAttempt call) ->
     retries = 3 /\ Z.of_nat (calls_by p ps) = currentAttempt).
Proof.
  intros m ps.
  destruct (exec_attributed (boot f) [] tr (boot_attributed f)) as [Hlen Hp].
  cbn [app] in *. fold m ps in Hlen, Hp. specialize (Hp p).
  split; [done|].
  destruct (heap m !! p) as [[r a c|v|e]|] eqn:Hcell.
  - destruct Hp as (-> & Hc & Ha).
    pose proof (lookup_lt_Some _ _ _ Hcell).
    split; [lia|]. split; [lia|]. split; [lia|].
    intros ? ? ? [= <- <- _]. done.
  - pose proof (lookup_lt_Some _ _ _ Hcell).
    split; [lia|]. split; [lia|]. split; [lia|]. done.
  - pose proof (lookup_lt_Some _ _ _ Hcell).
    split; [lia|]. split; [lia|]. split; [lia|]. done.
  - apply lookup_ge_None_1 in Hcell.
    split; [lia|]. split; [lia|]. split; [done|]. done.
Qed.

End CallsPerAttempt.

(** * More executions *)

Module MoreExecutions.

Import Cli Js Install Sample.

Lemma reachable_state_and_promise_witness :
  exists p,
    initializationPromise (this (fst (exec (boot resolves) [call_initialize]))) = Some p /\
    (p < length (heap (fst (exec (boot resolves) [call_initialize]))))%nat.
Proof.
  apply (proj1 (proj2 (reachable_state_and_promise resolves [call_initialize]))).
  reflexivity.
Defined.

Lemma attempt_is_retryFunction_witness :
  exists o calls,
    retryFunction 3 succeeds_third 3 1 0 = Some (o, calls) /\ (0 < calls <= 3)%nat.
Proof.
  destruct (attempt_is_retryFunction (boot succeeds_third) eq_refl)
    as (o & calls & Hrun & Hcalls & _).
  exists o, calls. split; [exact Hrun | exact Hcalls].
Defined.

Lemma retryFunction_first_success_witness :
  retryFunction 5 second_only 5 1 0 = Some (Resolved "0.31.2", 2%nat).
Proof.
  apply (proj1 (retryFunction_first_success 5 second_only 5 0
                  ltac:(lia) ltac:(unfold retryFunction_fuel; simpl; lia)) 1%nat "0.31.2").
  - intros i Hi. exists "ETIMEDOUT". assert (i = 0%nat) as -> by lia. reflexivity.
  - reflexivity.
  - lia.
Defined.

Lemma producer_calls_per_attempt_witness :
  (1 <= calls_by 0
          (callers (boot rejects)
             [call_initialize; producer_settles 0; producer_settles 0;
              producer_settles 0; call_observe]))%nat.
Proof.
  apply (proj1 (proj2 (proj2 (producer_calls_per_attempt rejects
           [call_initialize; producer_settles 0; producer_settles 0;
            producer_settles 0; call_observe] 0)))).
  vm_compute. lia.
Defined.

Lemma received_is_permanent_witness :
  receive
    (fst (exec (fst (exec (boot resolves) [call_initialize; producer_settles 0]))
            [call_reset; call_observe; producer_settles 1]))
    (Stored (Some 0%nat))
  = Got (Resolved "0.31.2").
Proof.
  apply (received_is_permanent
           (fst (exec (boot resolves) [call_initialize; producer_settles 0]))
           [call_reset; call_observe; producer_settles 1]).
  reflexivity.
Defined.

Lemma module_use_keeps_single_flight_witness :
  exists p v,
    initializationPromise
      (this (fst (tea_exec (loaded resolves) [tea_settles 0; tea_call true]))) = Some p /\
    heap (fst (tea_exec (loaded resolves) [tea_settles 0; tea_call true])) !! p
      = Some (Fulfilled v) /\
    active (heap (fst (tea_exec (loaded resolves) [tea_settles 0; tea_call true]))) = 0%nat.
Proof.
  apply (proj2 (proj2 (proj2 (module_use_keeps_single_flight resolves
                                [tea_settles 0; tea_call true])))).
  reflexivity.
Defined.

Lemma lastVersion_of_last_line_witness :
  lastVersion [lit "0.30.0"; [LF]; lit "0.3"; lit "1.2"; [LF]] = Some (lit "0.31.2").
Proof.
  apply (VersionFacts.lastVersion_of_last_line _ (lit "0.30.0" ++ [LF]) (lit "0.31.2") [LF]).
  - reflexivity.
  - right. reflexivity.
  - vm_compute. intros H. repeat (apply elem_of_cons in H as [H|H]; [discriminate|]).
    by apply elem_of_nil in H.
  - reflexivity.
  - reflexivity.
  - reflexivity.
Defined.

Lemma installTeaCli_resolves_witness :
  exists mid chunks,
    https_get linux_x64 (versionsUrl mid) = Response 200 chunks /\
    lastVersion chunks = Some (lit "0.31.2").
Proof.
  destruct (InstallFacts.installTeaCli_resolves linux_x64
              (fst (installTeaCli linux_x64)) (lit "0.31.2") eq_refl)
    as (mid & chunks & body & _ & Hget & Hv & _).
  exists mid, chunks. split; [exact Hget | exact Hv].
Defined.

Lemma installTeaCli_unsupported_witness :
  installTeaCli riscv =
    ([], Rejects (Error (lit "unsupported platform: linux/riscv64"))).
Proof.
  apply (InstallFacts.installTeaCli_unsupported riscv); discriminate.
Defined.

Lemma installTeaCli_blank_versions_witness :
  installTeaCli blank_versions =
    ([Get (versionsUrl (lit "linux/x86-64"))],
     Rejects (Error (lit "invalid versions.txt for tea/cli"))).
Proof.
  apply (InstallFacts.installTeaCli_blank_versions blank_versions
           (lit "linux/x86-64") [[LF]]); reflexivity.
Defined.

Lemma installTeaCli_writes_need_version_witness :
  exists mid chunks c s,
    midfix linux_x64 = ([], Resolves mid) /\
    https_get linux_x64 (versionsUrl mid) = Response 200 chunks /\
    lastVersion chunks = Some (c :: s).
Proof.
  apply (InstallFacts.installTeaCli_writes_need_version linux_x64
           (Mkdir (lit "/home/u/.tea"))).
  - vm_compute. apply list_elem_of_further, list_elem_of_here.
  - reflexivity.
Defined.

Lemma installTeaCli_tar_failure_witness :
  Forall (fun a => touches_links a = false) (fst (installTeaCli tar_fails)).
Proof.
  apply (InstallFacts.installTeaCli_tar_failure tar_fails). discriminate.
Defined.

Lemma installTeaCli_working_directory_witness :
  cwd_after (cwd dangling_link) (fst (installTeaCli dangling_link))
    = lit "/home/u/.tea/tea.xyz".
Proof.
  apply (InstallFacts.installTeaCli_working_directory dangling_link
           (fst (installTeaCli dangling_link)) (snd (installTeaCli dangling_link)) eq_refl).
  - vm_compute. do 4 apply list_elem_of_further. apply list_elem_of_here.
  - intros v. vm_compute. discriminate.
Defined.

Lemma cliProducer_binary_present_witness :
  fst (cliProducer path_join getTeaPath str semverParse toString installed) = [] /\
  snd (cliProducer path_join getTeaPath str semverParse toString installed)
    = Resolves (lit "0.31.2").
Proof.
  destruct (InstallFacts.cliProducer_binary_present path_join getTeaPath str
              semverParse toString installed eq_refl) as [Hlog Hres].
  split; [exact Hlog|].
  apply Hres. exists (lit "v0.31.2"), (lit "0.31.2").
  repeat split. discriminate.
Defined.

End MoreExecutions.
